(** * The namespace-scoped interpreter of kwil-db, embedded in Rocq

    The development follows [package interpreter] (the engine behind
    [ThreadSafeInterpreter], [recursiveInterpreter] and [baseInterpreter]):
    the variable-name rule, the adapter that turns a scalar function
    definition into an executable, [call], [execute], the merge of extension
    namespaces done by [NewInterpreter], and the locking wrapper. *)

From Stdlib Require Import Ascii String.
From stdpp Require Import gmap strings list sorting pretty.

Local Open Scope string_scope.
Local Open Scope list_scope.

(** ** Errors

    Every [fmt.Errorf] of the package is a constructor; the argument of a
    constructor is what the format string prints. Errors raised by
    collaborators that live outside the package are [ErrExternal]. *)

Inductive error : Type :=
| ErrNoAccessModer                                   (* "database does not implement AccessModer" *)
| ErrNamespaceNotFound (namespace : string)          (* namespace "%s" does not exist *)
| ErrUnknownAction (action namespace : string)       (* engine.ErrUnknownAction: action "%s" does not exist in namespace "%s" *)
| ErrBuiltinNotCallable (action : string)            (* action "%s" is a built-in function and cannot be called directly *)
| ErrUnknownExecutableType (t : string)              (* node bug: unknown executable type "%s" *)
| ErrExpectedOneRow (iters : nat)                    (* expected 1 row, got %d *)
| ErrParse (cause : error)                           (* engine.ErrParse wrapping the parser's error *)
| ErrNoStatements (statement : string)               (* no valid statements provided: %s *)
| ErrVarNameSigil                                    (* variable name must start with $ *)
| ErrVarNameCharset                                  (* variable name must only contain letters, numbers, and underscores *)
| ErrVarNameTooLong (max : nat) (s : string)         (* variable name cannot be longer than %d characters, received %s *)
| ErrNotInitialized                                  (* could not determine if the database is initialized *)
| ErrUnexpectedRows                                  (* unexpected number of rows returned *)
| ErrUnknownExtension (name : string)                (* the database has an extension in use that is unknown to the system: %s *)
| ErrExternal (msg : string).

#[global] Instance error_eq_dec : EqDecision error.
Proof. solve_decision. Defined.

(** A Go function returning [(T, error)]. *)
Definition result (A : Type) : Type := A + error.

(** ** Regular expressions, as far as [identRegexp] needs them *)

Module Regexp.

Inductive regexp : Type :=
| Void
| Eps
| Class (p : ascii -> bool)
| Cat (r1 r2 : regexp)
| Alt (r1 r2 : regexp)
| Star (r : regexp).

(** The strings of a regular expression. *)
Inductive Matches : regexp -> string -> Prop :=
| MEps : Matches Eps ""
| MClass p c : p c = true -> Matches (Class p) (String c "")
| MCat r1 r2 s1 s2 : Matches r1 s1 -> Matches r2 s2 -> Matches (Cat r1 r2) (s1 +:+ s2)
| MAltL r1 r2 s : Matches r1 s -> Matches (Alt r1 r2) s
| MAltR r1 r2 s : Matches r2 s -> Matches (Alt r1 r2) s
| MStarNil r : Matches (Star r) ""
| MStarCons r s1 s2 : Matches r s1 -> Matches (Star r) s2 -> Matches (Star r) (s1 +:+ s2).

Fixpoint nullable (r : regexp) : bool :=
  match r with
  | Void => false
  | Eps => true
  | Class _ => false
  | Cat r1 r2 => nullable r1 && nullable r2
  | Alt r1 r2 => nullable r1 || nullable r2
  | Star _ => true
  end.

Fixpoint deriv (c : ascii) (r : regexp) : regexp :=
  match r with
  | Void => Void
  | Eps => Void
  | Class p => if p c then Eps else Void
  | Cat r1 r2 =>
      if nullable r1 then Alt (Cat (deriv c r1) r2) (deriv c r2)
      else Cat (deriv c r1) r2
  | Alt r1 r2 => Alt (deriv c r1) (deriv c r2)
  | Star r1 => Cat (deriv c r1) (Star r1)
  end.

(** [MatchString] of a pattern anchored with [^] and [$]: the whole text. *)
Fixpoint MatchString (r : regexp) (s : string) : bool :=
  match s with
  | "" => nullable r
  | String c s' => MatchString (deriv c r) s'
  end.

End Regexp.

(** ** Variable names *)

Definition isUpper (c : ascii) : bool :=
  (Nat.leb 65 (nat_of_ascii c) && Nat.leb (nat_of_ascii c) 90)%bool.
Definition isLower (c : ascii) : bool :=
  (Nat.leb 97 (nat_of_ascii c) && Nat.leb (nat_of_ascii c) 122)%bool.
Definition isDigit (c : ascii) : bool :=
  (Nat.leb 48 (nat_of_ascii c) && Nat.leb (nat_of_ascii c) 57)%bool.
Definition isLetter (c : ascii) : bool := (isUpper c || isLower c)%bool.
Definition isUnderscore (c : ascii) : bool := Nat.eqb (nat_of_ascii c) 95.
Definition isIdentChar (c : ascii) : bool :=
  (isLetter c || isDigit c || isUnderscore c)%bool.

(** [regexp.MustCompile(`^[A-Za-z][A-Za-z0-9_]*$`)] *)
Definition identRegexp : Regexp.regexp :=
  Regexp.Cat (Regexp.Class isLetter) (Regexp.Star (Regexp.Class isIdentChar)).

(** [strings.HasPrefix(s, prefix)] *)
Definition HasPrefix (s pre : string) : bool := String.prefix pre s.

(** [s[1:]]; only evaluated on a non-empty [s]. *)
Definition from1 (s : string) : string :=
  match s with
  | "" => ""
  | String _ s' => s'
  end.

Section VarName.

(** [validation.MAX_IDENT_NAME_LENGTH], declared outside the package. *)
Variable MAX_IDENT_NAME_LENGTH : nat.

(** [isValidVarName]: [None] is Go's [nil] error. *)
Definition isValidVarName (s : string) : option error :=
  if negb (HasPrefix s "$") then Some ErrVarNameSigil
  else if negb (Regexp.MatchString identRegexp (from1 s)) then Some ErrVarNameCharset
  else if Nat.ltb MAX_IDENT_NAME_LENGTH (String.length (from1 s))
       then Some (ErrVarNameTooLong MAX_IDENT_NAME_LENGTH s)
  else None.

End VarName.

(** The three conditions the variable rule is worded with: the sigil, only
    letters, digits and underscores behind it, and the length bound. *)
Definition charset_ok (s : string) : Prop :=
  Forall (fun c => isIdentChar c = true) (list_ascii_of_string s).

Definition worded_var_rule (max : nat) (s : string) : Prop :=
  exists rest, s = String "$" rest /\ charset_ok rest /\ String.length rest <= max.

(** What [identRegexp] asks on top of it: a leading letter. *)
Definition starts_with_letter (s : string) : Prop :=
  exists c rest, s = String c rest /\ isLetter c = true.

Definition var_rule (max : nat) (s : string) : Prop :=
  exists rest, s = String "$" rest /\ starts_with_letter rest /\
               charset_ok rest /\ String.length rest <= max.

(** ** Values and rows *)

(** Host data ([any]): what callers pass in and what a Value holds raw. *)
Inductive any : Type :=
| AnyNil
| AnyString (s : string)
| AnyInt (z : Z)
| AnyBool (b : bool)
| AnyOpaque (tag : string).   (* host data of some other shape *)

(** [types.DataType] *)
Record DataType : Type := { TypeName : string; IsArray : bool }.

(** [Value]: the interface with [Type()] and [RawValue()]. *)
Record Value : Type := { val_Type : DataType; RawValue : any }.

(** [row], the engine's own result row. *)
Record row : Type := { columns : list string; Values : list Value }.

(** [common.Row], the caller-facing row. *)
Record Row : Type :=
  { ColumnNames : list string; ColumnTypes : list DataType; RowValues : list any }.

Definition rowToCommonRow (r : row) : Row :=
  {| ColumnNames := columns r;
     ColumnTypes := map val_Type (Values r);
     RowValues := map RawValue (Values r) |}.

(** [common.CallResult] *)
Record CallResult : Type := { Logs : list string }.

(** [common.EngineContext]: passed through, never inspected here. *)
Inductive EngineContext : Type := EngineCtx (id : nat).

(** ** What a run leaves behind

    [trace] is an observation device, not program state: it records, in
    order, the queries sent to the database handle, the lines written to any
    log buffer, the variables bound, the statements started, the executables
    entered, and where a call made through the recursive handle begins and
    how it ends. *)

Inductive event : Type :=
| EvQuery (sql : string) (args : list Value)
| EvLog (buffer : nat) (line : string)
| EvSetVariable (name : string) (v : Value)
| EvStatement (index : nat)
| EvInvoke (name : string) (args : list Value)
| EvNestedCall (namespace action : string)
| EvNestedCallReturned
| EvNestedCallFailed (e : error)
| EvNestedExecute (statement : string)
| EvNestedExecuteReturned.

(** [sql.AccessMode] *)
Inductive AccessMode : Type := ReadOnly | ReadWrite.

#[global] Instance AccessMode_eq_dec : EqDecision AccessMode.
Proof. solve_decision. Defined.

(** [sql.DB]. [access] is [None] when the handle has no [AccessMode()]
    method (the assertion [db.(sql.AccessModer)] fails). The handle answers a
    query with raw rows and possibly an error; the answer may depend on what
    happened before. *)
Record DB : Type := {
  access : option AccessMode;
  respond : list event -> string -> list Value -> list (list any) * option error
}.

(** A row sink, a [func] from [common.Row] to [error]: a closure, so its answer may
    depend on the rows it has already received. Go's [nil] function is
    [None] at type [option sink]. *)
Definition sink : Type := list Row -> Row -> option error.

Definition noopSink : sink := fun _ _ => None.

(** ** Scope *)

(** Modelled from the spec: the [scope] struct and [newScope] are declared in
    another file of the package; the spec gives a Scope bindings keyed by a
    sigil-prefixed identifier, the namespace it was opened for, and the
    top-level flag. *)
Record scopeT : Type := {
  variables : gmap string Value;
  scope_namespace : string;
  isTopLevel : bool
}.

(** Modelled from the spec: [newScope] opens an empty scope for a
    namespace. *)
Definition newScope (namespace : string) : scopeT :=
  {| variables := ∅; scope_namespace := namespace; isTopLevel := false |}.

Definition set_isTopLevel (b : bool) (s : scopeT) : scopeT :=
  {| variables := variables s; scope_namespace := scope_namespace s; isTopLevel := b |}.

(** What the body of an executable can read off its execution context. *)
Record ctxView : Type := {
  view_engineCtx : EngineContext;
  view_canMutateState : bool;
  view_scope : scopeT
}.

(** ** Executables

    An executable's [Func] and a planned statement are Go closures over the
    execution context. A closure is embedded as the tree of what it does to
    that context: write a log line, query the database handle, hand a row to
    the result function, read or replace the scope, call back into the engine
    through [e.app().Engine] (the recursive handle), return or panic. *)
(** Go's run-time panics. *)
Inductive panic : Type :=
| PanicNilFunc           (* call of a nil result function *)
| PanicNilPointer        (* dereference of a log pointer that was never allocated *)
| PanicRaised (msg : string).   (* a panic raised inside a closure *)

Inductive prog : Type :=
| Return (err : option error)
| Crash (msg : string)
| AppendLog (line : string) (k : prog)
| RunQuery (sql : string) (scan args : list Value)
           (k : list (list Value) -> option error -> prog)
| Yield (r : row) (k : option error -> prog)
| Ask (k : ctxView -> prog)
| SetScope (s : scopeT) (k : prog)
| EngineCall (namespace action : string) (args : list any) (fn : option sink)
             (k : list Row -> result CallResult -> prog)
| EngineExecute (statement : string) (params : gmap string any) (fn : option sink)
                (k : list Row -> option error -> prog).

(** [executableType] is a string type in Go with three named constants; any
    other value takes the [default] branch of [call]. *)
Inductive executableType : Type :=
| executableTypeFunction
| executableTypeAction
| executableTypePrecompile
| executableTypeOther (name : string).

Record executable : Type := {
  Name : string;
  Func : list Value -> prog;
  Type_ : executableType
}.

(** [engine.Table]: only its name matters here. *)
Record Table : Type := { TableName : string; TableColumns : list string }.

Inductive namespaceType : Type :=
| namespaceTypeUser | namespaceTypeSystem | namespaceTypeExtension
| namespaceTypeOther (name : string).

Definition namespaceType_valid (n : namespaceType) : bool :=
  match n with
  | namespaceTypeUser | namespaceTypeSystem | namespaceTypeExtension => true
  | namespaceTypeOther _ => false
  end.

Record namespace : Type := {
  availableFunctions : gmap string executable;
  tables : gmap string Table;
  onDeploy : prog;
  onUndeploy : prog;
  ns_namespaceType : namespaceType;
  methods : gmap string executable
}.

(** Modelled from the spec: the access controller is declared in another file
    of the package; the spec has it track the registered namespaces and the
    persisted grants, and change only by explicit registration. *)
Record accessController : Type := {
  registered : gset string;
  grants : gmap string (list string)
}.

Definition registerNamespace (name : string) (ac : accessController) : accessController :=
  {| registered := {[name]} ∪ registered ac; grants := grants ac |}.

Record baseInterpreter : Type := {
  namespaces : gmap string namespace;
  bi_accessController : accessController
}.

Record executionContext : Type := {
  engineCtx : EngineContext;
  canMutateState : bool;
  db : DB;
  interpreter : baseInterpreter;
  logs : nat    (* pointer to []string: the address of the log buffer *)
}.

(** The part of an execution context that its owner mutates in place: the
    scope, and the rows its result function has been handed. *)
Record frame : Type := { fscope : scopeT; delivered : list Row }.

Definition DefaultNamespace : string := "main".
Definition infoNamespace : string := "info".

(** ** Collaborators declared outside the package

    [strings.ToLower], the value constructors ([NewValue], [NewZeroValue]),
    the parser with the planner that turns a statement into a [stmtFunc], the
    scope's [setVariable] and the identifier length bound are taken as
    parameters. *)
Class Host : Type := {
  ToLower : string -> string;
  NewValue : any -> result Value;
  NewZeroValue : DataType -> result Value;
  (** Modelled from the spec: the zero value built for a data type carries
      that data type. *)
  NewZeroValue_Type : forall t v, NewZeroValue t = inl v -> val_Type v = t;
  Statement : Type;
  Parse : string -> result (list Statement);
  plan : Statement -> prog;
  setVariable : scopeT -> string -> Value -> result scopeT;
  MAX_IDENT_NAME_LENGTH : nat
}.

(** ** The state monad of a run *)

(** A run that does not come back: it panicked, or it did not finish within
    the nesting depth it was given. *)
Inductive abort : Type :=
| Panics (p : panic)
| OutOfFuel.

(** [heap] holds the log buffers ([[]string] values behind pointers), by
    address. *)
Record world : Type := { heap : list (list string); trace : list event }.

Definition M (A : Type) : Type := world -> (A + abort) * world.

Definition ret {A} (a : A) : M A := fun w => (inl a, w).

Definition bind {A B} (m : M A) (f : A -> M B) : M B :=
  fun w => match m w with
           | (inl a, w') => f a w'
           | (inr x, w') => (inr x, w')
           end.

Definition throw {A} (x : abort) : M A := fun w => (inr x, w).

(** A run that did not end in a call of a nil result function. *)
Definition nil_free {A} (r : (A + abort) * world) : Prop :=
  r.1 <> inr (Panics PanicNilFunc).

Notation "x <- c ;; k" := (bind c (fun x => k))
  (at level 63, c at next level, right associativity).
Notation "c ;;; k" := (bind c (fun _ => k))
  (at level 63, right associativity).

Definition observe (ev : event) : M unit :=
  fun w => (inl tt, {| heap := heap w; trace := trace w ++ [ev] |}).

(** [logs := make([]string, 0)] followed by [&logs]. *)
Definition allocLogs : M nat :=
  fun w => (inl (length (heap w)), {| heap := heap w ++ [[]]; trace := trace w |}).

(** [*p = append( *p, line)], where a closure writes a new line. *)
Definition appendLog (p : nat) (line : string) : M unit :=
  fun w => match heap w !! p with
           | None => (inr (Panics PanicNilPointer), w)
           | Some _ =>
               (inl tt, {| heap := alter (fun buf => buf ++ [line]) p (heap w);
                           trace := trace w ++ [EvLog p line] |})
           end.

(** [*p = append( *p, lines...)], where the recursive handle copies the
    lines of a finished call: no new line is written. *)
Definition extendLogs (p : nat) (lines : list string) : M unit :=
  fun w => match heap w !! p with
           | None => (inr (Panics PanicNilPointer), w)
           | Some _ =>
               (inl tt, {| heap := alter (fun buf => buf ++ lines) p (heap w);
                           trace := trace w |})
           end.

(** [*p] *)
Definition readLogs (p : nat) : M (list string) :=
  fun w => match heap w !! p with
           | None => (inr (Panics PanicNilPointer), w)
           | Some buf => (inl buf, w)
           end.

(** Scanning one raw result row into the scan targets: each target keeps its
    data type and takes the raw value of its column. *)
Fixpoint scanInto (scan : list Value) (raw : list any) : list Value :=
  match scan, raw with
  | v :: scan', x :: raw' => {| val_Type := val_Type v; RawValue := x |} :: scanInto scan' raw'
  | _, _ => scan
  end.

(** Modelled from the spec: [query] is declared in another file of the
    package. It executes the text against the database handle with positional
    arguments and, for every result row, scans the row into the scan targets
    and calls the row callback. The result here is what the scan targets held
    at each callback, and the error of the query. *)
Definition query (d : DB) (sql : string) (scan args : list Value)
  : M (list (list Value) * option error) :=
  fun w => let '(raws, err) := respond d (trace w) sql args in
           (inl (map (scanInto scan) raws, err),
            {| heap := heap w; trace := trace w ++ [EvQuery sql args] |}).

(** Calling a result function value. *)
Definition invokeSink (fn : option sink) (r : Row) (fr : frame) : M (option error * frame) :=
  match fn with
  | None => throw (Panics PanicNilFunc)
  | Some f => ret (f (delivered fr) r,
                   {| fscope := fscope fr; delivered := delivered fr ++ [r] |})
  end.

(** [engine.ScalarFunctionDefinition] *)
Record ScalarFunctionDefinition : Type := {
  ValidateArgsFunc : list DataType -> result DataType;
  PGFormatFunc : list string -> result string
}.

(** [engine.FunctionDefinition]: the scalar definitions and the others
    (aggregates, window functions). *)
Inductive FunctionDefinition : Type :=
| ScalarDef (d : ScalarFunctionDefinition)
| OtherDef (kind : string).

(** The order of the keys of two entries; Go compares strings byte by
    byte. *)
Definition key_le (p q : string * any) : Prop := String.leb p.1 q.1 = true.

#[global] Instance key_le_dec p q : Decision (key_le p q).
Proof. unfold key_le. apply _. Defined.

(** Modelled from the spec: [order.OrderMap] is declared in another package
    of the repository; it gives the entries of a map sorted by key, whatever
    order the map is iterated in. *)
Definition OrderMap (m : gmap string any) : list (string * any) :=
  merge_sort key_le (map_to_list m).

(** ** The engine *)

(** [recursiveInterpreter]: the engine handle given to extensions. [ri_logs]
    is its [logs] pointer. *)
Record recursiveInterpreter : Type := { ri_i : baseInterpreter; ri_logs : nat }.

(** Modelled from the spec: [executionContext.app] is declared in another
    file of the package. The handle it gives an extension shares the log
    buffer of the call that invoked the extension. *)
Definition app_Engine (e : executionContext) : recursiveInterpreter :=
  {| ri_i := interpreter e; ri_logs := logs e |}.

Section Engine.

Context `{Host}.

Definition engineCall : Type :=
  baseInterpreter -> EngineContext -> DB -> string -> string -> list any ->
  option sink -> bool -> M (result CallResult * list Row).

Definition engineExecute : Type :=
  baseInterpreter -> EngineContext -> DB -> string -> gmap string any ->
  option sink -> bool -> M (option error * list Row).

(** [funcDefToExecutable] *)
Definition funcDefToExecutable (funcName : string) (funcDef : ScalarFunctionDefinition)
  : executable :=
  {| Name := funcName;
     Func := fun args =>
       let params := imap (fun i _ => "$" +:+ pretty (i + 1)) args in
       let argTypes := map val_Type args in
       match ValidateArgsFunc funcDef argTypes with
       | inr err => Return (Some err)
       | inl retTyp =>
           if String.eqb funcName "notice" then
             match args with
             | [] => Crash "index out of range [0] with length 0"
             | a :: _ =>
                 match RawValue a with
                 | AnyString line => AppendLog line (Return None)
                 | _ => Crash "interface conversion: interface {} is not string"
                 end
             end
           else
             match NewZeroValue retTyp with
             | inr err => Return (Some err)
             | inl zeroVal =>
                 match PGFormatFunc funcDef params with
                 | inr err => Return (Some err)
                 | inl pgFormat =>
                     RunQuery ("SELECT " +:+ pgFormat +:+ ";") [zeroVal] args
                       (fun scanned err =>
                          match err with
                          | Some e => Return (Some e)
                          | None =>
                              let iters := length scanned in
                              if negb (Nat.eqb iters 1)
                              then Return (Some (ErrExpectedOneRow iters))
                              else Yield {| columns := [funcName];
                                            Values := List.last scanned [zeroVal] |}
                                         (fun r => Return r)
                          end)
                 end
             end
       end;
     Type_ := executableTypeFunction |}.

Section Body.

(** The entry points the recursive handle reaches: [call] and [execute] one
    nesting level down. *)
Variable callRec : engineCall.
Variable executeRec : engineExecute.

(** [recursiveInterpreter.Call] *)
Definition recursiveInterpreter_Call (r : recursiveInterpreter) (ctx : EngineContext)
    (d : DB) (namespace action : string) (args : list any) (resultFn : option sink)
  : M (result CallResult * list Row) :=
  observe (EvNestedCall namespace action) ;;;
  x <- callRec (ri_i r) ctx d namespace action args resultFn false ;;
  match x.1 with
  | inr err => observe (EvNestedCallFailed err) ;;; ret (inr err, x.2)
  | inl res =>
      extendLogs (ri_logs r) (Logs res) ;;;
      observe EvNestedCallReturned ;;;
      ret (inl res, x.2)
  end.

(** [recursiveInterpreter.Execute] *)
Definition recursiveInterpreter_Execute (r : recursiveInterpreter) (ctx : EngineContext)
    (d : DB) (statement : string) (params : gmap string any) (fn : option sink)
  : M (option error * list Row) :=
  observe (EvNestedExecute statement) ;;;
  x <- executeRec (ri_i r) ctx d statement params fn false ;;
  observe EvNestedExecuteReturned ;;;
  ret x.

Definition view (e : executionContext) (fr : frame) : ctxView :=
  {| view_engineCtx := engineCtx e;
     view_canMutateState := canMutateState e;
     view_scope := fscope fr |}.

(** Running a closure in its execution context. [fn] is the caller's result
    function: the closure's own [resultFunc] converts each row with
    [rowToCommonRow] and hands it on. *)
Fixpoint run (e : executionContext) (fn : option sink) (p : prog) (fr : frame)
  : M (option error * frame) :=
  match p with
  | Return err => ret (err, fr)
  | Crash msg => throw (Panics (PanicRaised msg))
  | AppendLog line k =>
      appendLog (logs e) line ;;; run e fn k fr
  | RunQuery sql scan args k =>
      x <- query (db e) sql scan args ;; run e fn (k x.1 x.2) fr
  | Yield r k =>
      x <- invokeSink fn (rowToCommonRow r) fr ;; run e fn (k x.1) x.2
  | Ask k => run e fn (k (view e fr)) fr
  | SetScope s k => run e fn k {| fscope := s; delivered := delivered fr |}
  | EngineCall namespace action args nfn k =>
      x <- recursiveInterpreter_Call (app_Engine e) (engineCtx e) (db e)
             namespace action args nfn ;;
      run e fn (k x.2 x.1) fr
  | EngineExecute statement params nfn k =>
      x <- recursiveInterpreter_Execute (app_Engine e) (engineCtx e) (db e)
             statement params nfn ;;
      run e fn (k x.2 x.1) fr
  end.

(** [baseInterpreter.newExecCtx]. The scope of the new context is returned
    next to it (it is the mutable part). *)
Definition newExecCtx (i : baseInterpreter) (txCtx : EngineContext) (d : DB)
    (namespace : string) (toplevel : bool) : M (result (executionContext * frame)) :=
  match access d with
  | None => ret (inr ErrNoAccessModer)
  | Some am =>
      l <- allocLogs ;;
      ret (inl ({| engineCtx := txCtx;
                   canMutateState := bool_decide (am = ReadWrite);
                   db := d;
                   interpreter := i;
                   logs := l |},
                {| fscope := set_isTopLevel toplevel (newScope namespace);
                   delivered := [] |}))
  end.

(** The loop of [call] that converts the host arguments. *)
Fixpoint convertArgs (args : list any) : result (list Value) :=
  match args with
  | [] => inl []
  | arg :: rest =>
      match NewValue arg with
      | inr err => inr err
      | inl val =>
          match convertArgs rest with
          | inr err => inr err
          | inl vals => inl (val :: vals)
          end
      end
  end.

(** The key under which [call] looks a namespace up: the default namespace
    for the empty string, lower-cased. *)
Definition namespaceKey (namespace : string) : string :=
  ToLower (if String.eqb namespace "" then DefaultNamespace else namespace).

(** [baseInterpreter.call] *)
Definition call_body (i : baseInterpreter) (ctx : EngineContext) (d : DB)
    (namespace action : string) (args : list any) (resultFn : option sink)
    (toplevel : bool) : M (result CallResult * list Row) :=
  let resultFn := match resultFn with None => Some noopSink | Some f => Some f end in
  let namespace := if String.eqb namespace "" then DefaultNamespace else namespace in
  let namespace := ToLower namespace in
  let action := ToLower action in
  c <- newExecCtx i ctx d namespace toplevel ;;
  match c with
  | inr err => ret (inr err, [])
  | inl (execCtx, fr) =>
      match namespaces i !! namespace with
      | None => ret (inr (ErrNamespaceNotFound namespace), [])
      | Some ns =>
          match availableFunctions ns !! action with
          | None => ret (inr (ErrUnknownAction action namespace), [])
          | Some exec =>
              match Type_ exec with
              | executableTypeFunction => ret (inr (ErrBuiltinNotCallable action), [])
              | executableTypeOther t => ret (inr (ErrUnknownExecutableType t), [])
              | executableTypeAction | executableTypePrecompile =>
                  match convertArgs args with
                  | inr err => ret (inr err, [])
                  | inl argVals =>
                      observe (EvInvoke (Name exec) argVals) ;;;
                      x <- run execCtx resultFn (Func exec argVals) fr ;;
                      match x.1 with
                      | Some err => ret (inr err, delivered x.2)
                      | None =>
                          buf <- readLogs (logs execCtx) ;;
                          ret (inl {| Logs := buf |}, delivered x.2)
                      end
                  end
              end
          end
      end
  end.

(** The parameter loop of [execute]. *)
Fixpoint bindParams (ps : list (string * any)) (sc : scopeT) : M (option error * scopeT) :=
  match ps with
  | [] => ret (None, sc)
  | param :: rest =>
      match NewValue param.2 with
      | inr err => ret (Some err, sc)
      | inl val =>
          let name := ToLower param.1 in
          let name := if negb (HasPrefix name "$") then "$" +:+ name else name in
          match isValidVarName MAX_IDENT_NAME_LENGTH name with
          | Some err => ret (Some err, sc)
          | None =>
              match setVariable sc name val with
              | inr err => ret (Some err, sc)
              | inl sc' => observe (EvSetVariable name val) ;;; bindParams rest sc'
              end
          end
      end
  end.

(** The statement loop of [execute]. *)
Fixpoint runStatements (e : executionContext) (fn : option sink) (index : nat)
    (ast : list Statement) (fr : frame) : M (option error * frame) :=
  match ast with
  | [] => ret (None, fr)
  | stmt :: rest =>
      observe (EvStatement index) ;;;
      x <- run e fn (plan stmt) fr ;;
      match x.1 with
      | Some err => ret (Some err, x.2)
      | None => runStatements e fn (S index) rest x.2
      end
  end.

(** [baseInterpreter.execute] *)
Definition execute_body (i : baseInterpreter) (ctx : EngineContext) (d : DB)
    (statement : string) (params : gmap string any) (fn : option sink)
    (toplevel : bool) : M (option error * list Row) :=
  let fn := match fn with None => Some noopSink | Some f => Some f end in
  match Parse statement with
  | inr err => ret (Some (ErrParse err), [])
  | inl ast =>
      if Nat.eqb (length ast) 0 then ret (Some (ErrNoStatements statement), [])
      else
        c <- newExecCtx i ctx d DefaultNamespace toplevel ;;
        match c with
        | inr err => ret (Some err, [])
        | inl (execCtx, fr) =>
            b <- bindParams (OrderMap params) (fscope fr) ;;
            match b.1 with
            | Some err => ret (Some err, [])
            | None =>
                x <- runStatements execCtx fn 0 ast
                       {| fscope := b.2; delivered := delivered fr |} ;;
                ret (x.1, delivered x.2)
            end
        end
  end.

End Body.

(** The execution context and the frame [newExecCtx] builds in a world [w]
    for a handle with access mode [am]. *)
Definition contextIn (i : baseInterpreter) (ctx : EngineContext) (d : DB)
    (am : AccessMode) (w : world) : executionContext :=
  {| engineCtx := ctx;
     canMutateState := bool_decide (am = ReadWrite);
     db := d;
     interpreter := i;
     logs := length (heap w) |}.

Definition freshFrame (namespace : string) (toplevel : bool) : frame :=
  {| fscope := set_isTopLevel toplevel (newScope namespace); delivered := [] |}.

(** The result function [call] and [execute] work with: a no-op stands in
    for [nil]. *)
Definition orNoop (fn : option sink) : option sink :=
  match fn with None => Some noopSink | Some f => Some f end.

(** The name a parameter key is bound under in [execute]. *)
Definition paramName (key : string) : string :=
  let name := ToLower key in
  if negb (HasPrefix name "$") then "$" +:+ name else name.

(** The log lines a top-level call carries out of a trace: a line written
    by the call itself counts; the lines of a call made through the recursive
    handle count once that call has returned without error; the lines of a
    nested call that failed, and the lines written under a nested [Execute],
    are dropped. [stack] holds the lines of the enclosing calls, [top] the
    lines of the innermost call that is still running. *)
Fixpoint carried (tr : list event) (stack : list (list string)) (top : list string)
  : list string :=
  match tr with
  | [] => top
  | ev :: tr' =>
      match ev with
      | EvLog _ line => carried tr' stack (top ++ [line])
      | EvNestedCall _ _ | EvNestedExecute _ => carried tr' (top :: stack) []
      | EvNestedCallReturned =>
          match stack with
          | outer :: stack' => carried tr' stack' (outer ++ top)
          | [] => carried tr' [] top
          end
      | EvNestedCallFailed _ | EvNestedExecuteReturned =>
          match stack with
          | outer :: stack' => carried tr' stack' outer
          | [] => carried tr' [] top
          end
      | _ => carried tr' stack top
      end
  end.

(** Every line written, by whom ever. *)
Definition written (tr : list event) : list string :=
  omap (fun ev => match ev with EvLog _ line => Some line | _ => None end) tr.

(** No call through the recursive handle failed and no nested [Execute] was
    made. *)
Definition all_nested_calls_returned (tr : list event) : Prop :=
  Forall (fun ev => match ev with
                    | EvNestedCallFailed _ | EvNestedExecute _ => False
                    | _ => True
                    end) tr.

(** A stretch of trace [tr] accounts for the lines [delta]: whatever
    follows it, the innermost running call has gained exactly [delta] over
    [tr]; and when every nested call of [tr] returned, [delta] is every line
    written in [tr]. *)
Definition accounts (tr : list event) (delta : list string) : Prop :=
  (forall rest stack top,
      carried (tr ++ rest) stack top = carried rest stack (top ++ delta))
  /\ (all_nested_calls_returned tr -> delta = written tr).

(** How a stretch of a run changes the world. [own] is the log buffer of the
    execution context the stretch runs in, if it has one yet: that buffer
    gains [delta]; the other buffers that existed before are left alone. *)
Definition evolves (own : option nat) (w : world) (tr : list event)
    (delta : list string) (w' : world) : Prop :=
  accounts tr delta
  /\ length (heap w) <= length (heap w')
  /\ (forall l, l < length (heap w) -> own <> Some l -> heap w' !! l = heap w !! l)
  /\ (forall l buf, own = Some l -> heap w !! l = Some buf ->
         heap w' !! l = Some (buf ++ delta)).

Definition allocated (own : option nat) (w : world) : Prop :=
  forall l, own = Some l -> is_Some (heap w !! l).

(** Every run of [m] extends the trace, and a run that comes back evolves
    the world. *)
Definition steps {A} (own : option nat) (m : M A) : Prop :=
  forall w r w',
    allocated own w -> m w = (r, w') ->
    exists tr : list event,
      trace w' = trace w ++ tr /\
      (forall a, r = inl a -> exists delta : list string, evolves own w tr delta w').

(** An event that records something other than a log line or a nested
    call. *)
Definition silent (ev : event) : Prop :=
  match ev with
  | EvQuery _ _ | EvSetVariable _ _ | EvStatement _ | EvInvoke _ _ => True
  | _ => False
  end.

(** What the proofs ask of an entry point one nesting level down: a call
    extends the trace; when it comes back, the buffers that existed before
    are untouched, and the lines it returns in [Logs] are the lines its
    stretch of trace accounts for. *)
Definition call_spec (c : engineCall) : Prop :=
  forall i ctx d namespace action args fn toplevel w r w',
    c i ctx d namespace action args fn toplevel w = (r, w') ->
    exists tr : list event,
      trace w' = trace w ++ tr /\
      (forall x, r = inl x ->
         exists delta : list string,
           evolves None w tr delta w' /\
           (forall res, x.1 = inl res ->
              Logs res = delta /\ heap w' !! length (heap w) = Some delta)).

Definition execute_spec (c : engineExecute) : Prop :=
  forall i ctx d statement params fn toplevel w r w',
    c i ctx d statement params fn toplevel w = (r, w') ->
    exists tr : list event,
      trace w' = trace w ++ tr /\
      (forall x, r = inl x -> exists delta : list string, evolves None w tr delta w').

(** A parameter that [execute] can bind: its value converts and its
    normalized name passes the identifier rule. *)
Definition goodParam (p : string * any) : Prop :=
  (exists val, NewValue p.2 = inl val) /\
  isValidVarName MAX_IDENT_NAME_LENGTH (paramName p.1) = None.

(** What binding a parameter leaves in the trace. *)
Definition bindingEvent (p : string * any) : list event :=
  match NewValue p.2 with
  | inl val => [EvSetVariable (paramName p.1) val]
  | inr _ => []
  end.

(** Nesting: a closure that calls back into the engine enters [call] or
    [execute] one level down; [depth] bounds the levels. *)
Fixpoint nested_call (depth : nat) : engineCall :=
  match depth with
  | 0 => fun _ _ _ _ _ _ _ _ => throw OutOfFuel
  | S n => call_body (nested_call n) (nested_execute n)
  end
with nested_execute (depth : nat) : engineExecute :=
  match depth with
  | 0 => fun _ _ _ _ _ _ _ => throw OutOfFuel
  | S n => execute_body (nested_call n) (nested_execute n)
  end.

Definition call (depth : nat) : engineCall :=
  call_body (nested_call depth) (nested_execute depth).

Definition execute (depth : nat) : engineExecute :=
  execute_body (nested_call depth) (nested_execute depth).

End Engine.

(** ** Interpreter construction *)

(** One row of the namespace listing ([ns.Name], [ns.Type]). *)
Record namespaceInfo : Type := { nsName : string; nsType : namespaceType }.

(** One persisted extension initialization ([ext.ExtName], [ext.Alias],
    [ext.Metadata]). *)
Record storedExtension : Type := {
  ExtName : string;
  Alias : string;
  Metadata : gmap string any
}.

(** What construction reads: the table of built-in functions
    ([engine.Functions]), the persisted catalog behind the database handle,
    and the registry of precompiles. All of it is declared outside the
    interpreter file and taken as parameters. *)
Class Store `{Host} : Type := {
  Functions : gmap string FunctionDefinition;
  Action : Type;
  makeActionToExecutable : string -> Action -> executable;
  Precompile : Type;
  ExtInstance : Type;
  (* the rows of the EXISTS query on the metadata schema, and its error *)
  querySchemaExists : DB -> list bool * option error;
  (* the handle after the initialization DDL ran *)
  initSQL : DB -> result DB;
  listNamespaces : DB -> result (list namespaceInfo);
  newAccessController : DB -> result accessController;
  listTablesInNamespace : DB -> string -> result (list Table);
  listActionsInNamespace : DB -> string -> result (list Action);
  getExtensionInitializationMetadata : DB -> result (list storedExtension);
  RegisteredPrecompiles : gmap string Precompile;
  initializeExtension : DB -> Precompile -> string -> gmap string any ->
                        result (namespace * ExtInstance);
  OnStart : ExtInstance -> baseInterpreter -> DB -> option error
}.

(** [sync.RWMutex], as its documentation describes it: any number of
    readers or one writer. *)
Record RWMutex : Type := { readers : nat; writer : bool }.

Record ThreadSafeInterpreter : Type := { mu : RWMutex; ts_i : baseInterpreter }.

Section Construction.

Context `{Store}.

(** [builtInExecutables]: the scalar definitions of [engine.Functions],
    each turned into an executable. *)
Definition builtInExecutables : gmap string executable :=
  map_fold (fun funcName impl execs =>
              match impl with
              | ScalarDef scalarImpl =>
                  <[funcName := funcDefToExecutable funcName scalarImpl]> execs
              | OtherDef _ => execs
              end) ∅ Functions.

(** [copyBuiltinExecutables] *)
Definition copyBuiltinExecutables : gmap string executable :=
  map_fold (fun k v b => <[k := v]> b) ∅ builtInExecutables.

(** The body of the namespace loop of [NewInterpreter]. *)
Definition loadNamespace (d : DB) (interp : baseInterpreter) (ns : namespaceInfo)
  : result baseInterpreter :=
  match listTablesInNamespace d (nsName ns) with
  | inr err => inr err
  | inl tbls =>
      let tblMap := foldl (fun m tbl => <[TableName tbl := tbl]> m) ∅ tbls in
      match listActionsInNamespace d (nsName ns) with
      | inr err => inr err
      | inl actions =>
          let namespaceFunctions :=
            foldl (fun m action =>
                     let exec := makeActionToExecutable (nsName ns) action in
                     <[Name exec := exec]> m)
                  copyBuiltinExecutables actions in
          inl {| namespaces :=
                   <[nsName ns := {| availableFunctions := namespaceFunctions;
                                     tables := tblMap;
                                     onDeploy := Return None;
                                     onUndeploy := Return None;
                                     ns_namespaceType := nsType ns;
                                     methods := ∅ |}]> (namespaces interp);
                 bi_accessController :=
                   registerNamespace (nsName ns) (bi_accessController interp) |}
      end
  end.

Fixpoint loadNamespaces (d : DB) (interp : baseInterpreter) (l : list namespaceInfo)
  : result baseInterpreter :=
  match l with
  | [] => inl interp
  | ns :: rest =>
      match loadNamespace d interp ns with
      | inr err => inr err
      | inl interp' => loadNamespaces d interp' rest
      end
  end.

(** The merge inside the extension loop: every function of the namespace that
    was already loaded is written over the extension's, and the loaded tables
    replace the extension's. *)
Definition mergeExisting (existing ext : namespace) : namespace :=
  {| availableFunctions :=
       map_fold (fun k v fns => <[k := v]> fns)
                (availableFunctions ext) (availableFunctions existing);
     tables := tables existing;
     onDeploy := onDeploy ext;
     onUndeploy := onUndeploy ext;
     ns_namespaceType := ns_namespaceType ext;
     methods := methods ext |}.

(** The body of the extension loop of [NewInterpreter]. *)
Definition loadExtension (d : DB) (st : baseInterpreter * list ExtInstance)
    (ext : storedExtension) : result (baseInterpreter * list ExtInstance) :=
  let (interp, instances) := st in
  match RegisteredPrecompiles !! ExtName ext with
  | None => inr (ErrUnknownExtension (ExtName ext))
  | Some sysExt =>
      match initializeExtension d sysExt (Alias ext) (Metadata ext) with
      | inr err => inr err
      | inl (ns, inst) =>
          let instances := instances ++ [inst] in
          let ns := match namespaces interp !! Alias ext with
                    | Some existing => mergeExisting existing ns
                    | None => ns
                    end in
          inl ({| namespaces := <[Alias ext := ns]> (namespaces interp);
                  bi_accessController :=
                    registerNamespace (Alias ext) (bi_accessController interp) |},
               instances)
      end
  end.

Fixpoint loadExtensions (d : DB) (st : baseInterpreter * list ExtInstance)
    (l : list storedExtension) : result (baseInterpreter * list ExtInstance) :=
  match l with
  | [] => inl st
  | ext :: rest =>
      match loadExtension d st ext with
      | inr err => inr err
      | inl st' => loadExtensions d st' rest
      end
  end.

Fixpoint startInstances (d : DB) (interp : baseInterpreter) (l : list ExtInstance)
  : option error :=
  match l with
  | [] => None
  | inst :: rest =>
      match OnStart inst interp d with
      | Some err => Some err
      | None => startInstances d interp rest
      end
  end.

(** The part of [NewInterpreter] after the bootstrap check. *)
Definition loadInterpreter (d : DB) : result ThreadSafeInterpreter :=
  match listNamespaces d with
  | inr err => inr err
  | inl nss =>
      match newAccessController d with
      | inr err => inr err
      | inl ac =>
          match loadNamespaces d {| namespaces := ∅; bi_accessController := ac |} nss with
          | inr err => inr err
          | inl interp =>
              match getExtensionInitializationMetadata d with
              | inr err => inr err
              | inl storedExts =>
                  match loadExtensions d (interp, []) storedExts with
                  | inr err => inr err
                  | inl (interp', instances) =>
                      match startInstances d interp' instances with
                      | Some err => inr err
                      | None => inl {| mu := {| readers := 0; writer := false |};
                                       ts_i := interp' |}
                      end
                  end
              end
          end
      end
  end.

(** [NewInterpreter] *)
Definition NewInterpreter (d : DB) : result ThreadSafeInterpreter :=
  let (rows, err) := querySchemaExists d in
  match err with
  | Some e => inr e
  | None =>
      match length rows with
      | 0 => inr ErrNotInitialized
      | 1 =>
          if negb (List.last rows false) then
            match initSQL d with
            | inr e => inr e
            | inl d' => loadInterpreter d'
            end
          else loadInterpreter d
      | _ => inr ErrUnexpectedRows
      end
  end.

End Construction.

(** ** The locking wrapper *)

Inductive lockMode : Type := Shared | Exclusive.

#[global] Instance lockMode_eq_dec : EqDecision lockMode.
Proof. solve_decision. Defined.

(** [ThreadSafeInterpreter.lock]: which lock the call takes; it returns once
    the lock is held. *)
Definition lock (d : DB) : result lockMode :=
  match access d with
  | None => inr ErrNoAccessModer
  | Some am => if bool_decide (am = ReadOnly) then inl Shared else inl Exclusive
  end.

Section Wrapper.

Context `{Host}.

(** [ThreadSafeInterpreter.Call], run by a caller that finds the lock free. *)
Definition ThreadSafeInterpreter_Call (depth : nat) (t : ThreadSafeInterpreter)
    (ctx : EngineContext) (d : DB) (namespace action : string) (args : list any)
    (resultFn : option sink) : M (result CallResult * list Row) :=
  match lock d with
  | inr err => ret (inr err, [])
  | inl _ => call depth (ts_i t) ctx d namespace action args resultFn true
  end.

(** [ThreadSafeInterpreter.Execute] *)
Definition ThreadSafeInterpreter_Execute (depth : nat) (t : ThreadSafeInterpreter)
    (ctx : EngineContext) (d : DB) (statement : string) (params : gmap string any)
    (fn : option sink) : M (option error * list Row) :=
  match lock d with
  | inr err => ret (Some err, [])
  | inl _ => execute depth (ts_i t) ctx d statement params fn true
  end.

(** A top-level request on the wrapper. *)
Inductive request : Type :=
| ReqCall (ctx : EngineContext) (d : DB) (namespace action : string)
          (args : list any) (resultFn : option sink)
| ReqExecute (ctx : EngineContext) (d : DB) (statement : string)
             (params : gmap string any) (fn : option sink).

Definition request_db (r : request) : DB :=
  match r with
  | ReqCall _ d _ _ _ _ => d
  | ReqExecute _ d _ _ _ => d
  end.

(** What a finished request gave its caller. *)
Inductive reply : Type :=
| CallReply (res : result CallResult) (rows : list Row)
| ExecuteReply (err : option error) (rows : list Row)
| Aborted (x : abort).

(** The engine entry the wrapper delegates to while it holds the lock. *)
Definition serve (depth : nat) (i : baseInterpreter) (r : request) (w : world)
  : reply * world :=
  match r with
  | ReqCall ctx d namespace action args resultFn =>
      match call depth i ctx d namespace action args resultFn true w with
      | (inl x, w') => (CallReply x.1 x.2, w')
      | (inr x, w') => (Aborted x, w')
      end
  | ReqExecute ctx d statement params fn =>
      match execute depth i ctx d statement params fn true w with
      | (inl x, w') => (ExecuteReply x.1 x.2, w')
      | (inr x, w') => (Aborted x, w')
      end
  end.

Definition rejection (r : request) (err : error) : reply :=
  match r with
  | ReqCall _ _ _ _ _ _ => CallReply (inr err) []
  | ReqExecute _ _ _ _ _ => ExecuteReply (Some err) []
  end.

(** A caller of the wrapper: before [t.lock] has returned, between [t.lock]
    and the deferred unlock (inside the engine), and after. *)
Inductive caller : Type :=
| Entering (r : request)
| Inside (m : lockMode) (r : request)
| Left (out : reply).

Record system : Type := {
  sys_mu : RWMutex;
  sys_callers : list caller;
  sys_world : world
}.

(** One interpreter instance [i] with its callers. Every rule moves one
    caller: [t.lock] fails, [RLock] or [Lock] is granted, or the engine call
    returns and the deferred unlock runs. *)
Inductive step (depth : nat) (i : baseInterpreter) : system -> system -> Prop :=
| step_reject s n r err :
    sys_callers s !! n = Some (Entering r) ->
    lock (request_db r) = inr err ->
    step depth i s {| sys_mu := sys_mu s;
                      sys_callers := <[n := Left (rejection r err)]> (sys_callers s);
                      sys_world := sys_world s |}
| step_RLock s n r :
    sys_callers s !! n = Some (Entering r) ->
    lock (request_db r) = inl Shared ->
    writer (sys_mu s) = false ->
    step depth i s {| sys_mu := {| readers := S (readers (sys_mu s)); writer := false |};
                      sys_callers := <[n := Inside Shared r]> (sys_callers s);
                      sys_world := sys_world s |}
| step_Lock s n r :
    sys_callers s !! n = Some (Entering r) ->
    lock (request_db r) = inl Exclusive ->
    writer (sys_mu s) = false ->
    readers (sys_mu s) = 0 ->
    step depth i s {| sys_mu := {| readers := 0; writer := true |};
                      sys_callers := <[n := Inside Exclusive r]> (sys_callers s);
                      sys_world := sys_world s |}
| step_RUnlock s n r :
    sys_callers s !! n = Some (Inside Shared r) ->
    step depth i s {| sys_mu := {| readers := pred (readers (sys_mu s));
                                   writer := writer (sys_mu s) |};
                      sys_callers :=
                        <[n := Left (serve depth i r (sys_world s)).1]> (sys_callers s);
                      sys_world := (serve depth i r (sys_world s)).2 |}
| step_Unlock s n r :
    sys_callers s !! n = Some (Inside Exclusive r) ->
    step depth i s {| sys_mu := {| readers := readers (sys_mu s); writer := false |};
                      sys_callers :=
                        <[n := Left (serve depth i r (sys_world s)).1]> (sys_callers s);
                      sys_world := (serve depth i r (sys_world s)).2 |}.

Definition initial (rs : list request) (w : world) : system :=
  {| sys_mu := {| readers := 0; writer := false |};
     sys_callers := map Entering rs;
     sys_world := w |}.

Inductive reachable (depth : nat) (i : baseInterpreter) (rs : list request) (w : world)
  : system -> Prop :=
| reach_initial : reachable depth i rs w (initial rs w)
| reach_step s s' : reachable depth i rs w s -> step depth i s s' ->
                    reachable depth i rs w s'.

(** Two callers overlap in a state when both are inside the engine. *)
Definition is_inside (c : caller) : bool :=
  match c with Inside _ _ => true | _ => false end.

Definition same_mode (m1 m2 : lockMode) : bool :=
  match m1, m2 with
  | Shared, Shared | Exclusive, Exclusive => true
  | _, _ => false
  end.

Definition is_inside_mode (m : lockMode) (c : caller) : bool :=
  match c with Inside m' _ => same_mode m' m | _ => false end.

(** How many callers are inside the engine under a given lock. *)
Fixpoint holders (m : lockMode) (cs : list caller) : nat :=
  match cs with
  | [] => 0
  | c :: cs' => (if is_inside_mode m c then 1 else 0) + holders m cs'
  end.

(** The mutex counts what the callers hold, a writer excludes readers, and a
    caller is inside only under the lock that [lock] chose for its handle. *)
Definition consistent (s : system) : Prop :=
  readers (sys_mu s) = holders Shared (sys_callers s)
  /\ holders Exclusive (sys_callers s) = (if writer (sys_mu s) then 1 else 0)
  /\ (writer (sys_mu s) = true -> readers (sys_mu s) = 0)
  /\ (forall n m r, sys_callers s !! n = Some (Inside m r) ->
                    lock (request_db r) = inl m).

Definition overlap (s : system) (n1 n2 : nat) : Prop :=
  n1 <> n2 /\
  exists c1 c2, sys_callers s !! n1 = Some c1 /\ sys_callers s !! n2 = Some c2 /\
                is_inside c1 = true /\ is_inside c2 = true.

End Wrapper.

(** ** A small installation, used to run the definitions *)

Module Demo.

Definition lowerChar (c : ascii) : ascii :=
  if isUpper c then ascii_of_nat (nat_of_ascii c + 32) else c.

(** [strings.ToLower] on ASCII text. *)
Fixpoint lower (s : string) : string :=
  match s with
  | "" => ""
  | String c s' => String (lowerChar c) (lower s')
  end.

Definition textType : DataType := {| TypeName := "text"; IsArray := false |}.
Definition intType : DataType := {| TypeName := "int8"; IsArray := false |}.
Definition boolType : DataType := {| TypeName := "bool"; IsArray := false |}.
Definition nullType : DataType := {| TypeName := "null"; IsArray := false |}.

Definition newValue (a : any) : result Value :=
  match a with
  | AnyNil => inl {| val_Type := nullType; RawValue := a |}
  | AnyString _ => inl {| val_Type := textType; RawValue := a |}
  | AnyInt _ => inl {| val_Type := intType; RawValue := a |}
  | AnyBool _ => inl {| val_Type := boolType; RawValue := a |}
  | AnyOpaque tag => inr (ErrExternal ("cannot convert " +:+ tag))
  end.

Definition newZeroValue (t : DataType) : result Value :=
  inl {| val_Type := t; RawValue := AnyNil |}.

Inductive statement : Type :=
| SelectOne
| SelectVar (name : string).

Definition parse (text : string) : result (list statement) :=
  if String.eqb text "" then inl []
  else if String.eqb text "SELECT 1" then inl [SelectOne]
  else if String.eqb text "SELECT $x; SELECT 1" then inl [SelectVar "$x"; SelectOne]
  else inr (ErrExternal "syntax error").

Definition planStatement (st : statement) : prog :=
  match st with
  | SelectOne =>
      Yield {| columns := ["?column?"];
               Values := [{| val_Type := intType; RawValue := AnyInt 1 |}] |}
            (fun r => Return r)
  | SelectVar name =>
      Ask (fun v =>
             match variables (view_scope v) !! name with
             | Some val => Yield {| columns := [name]; Values := [val] |} (fun r => Return r)
             | None => Return (Some (ErrExternal ("unknown variable " +:+ name)))
             end)
  end.

Definition assign (sc : scopeT) (name : string) (v : Value) : result scopeT :=
  inl {| variables := <[name := v]> (variables sc);
         scope_namespace := scope_namespace sc;
         isTopLevel := isTopLevel sc |}.

Definition host : Host :=
  {| ToLower := lower;
     NewValue := newValue;
     NewZeroValue := newZeroValue;
     NewZeroValue_Type := fun t v E =>
       eq_sym (f_equal (fun r : result Value =>
                          match r with inl x => val_Type x | inr _ => t end) E);
     Statement := statement;
     Parse := parse;
     plan := planStatement;
     setVariable := assign;
     MAX_IDENT_NAME_LENGTH := 32 |}.

(** The descriptor of [notice]: one text argument, no SQL form. *)
Definition noticeDef : ScalarFunctionDefinition :=
  {| ValidateArgsFunc := fun ts =>
       match ts with
       | [t] => if String.eqb (TypeName t) "text" then inl nullType
                else inr (ErrExternal "notice: expected text")
       | _ => inr (ErrExternal "notice: expected 1 argument")
       end;
     PGFormatFunc := fun _ => inr (ErrExternal "notice cannot be used in SQL") |}.

Definition absDef : ScalarFunctionDefinition :=
  {| ValidateArgsFunc := fun ts =>
       match ts with
       | [t] => inl t
       | _ => inr (ErrExternal "abs: expected 1 argument")
       end;
     PGFormatFunc := fun ps =>
       match ps with
       | [p] => inl ("abs(" +:+ p +:+ ")")
       | _ => inr (ErrExternal "abs: expected 1 argument")
       end |}.

Definition functions : gmap string FunctionDefinition :=
  <["notice" := ScalarDef noticeDef]>
    (<["abs" := ScalarDef absDef]> (<["count" := OtherDef "aggregate"]> ∅)).

(** A user action that writes one line. *)
Definition greet : executable :=
  {| Name := "greet";
     Func := fun _ => AppendLog "hi" (Return None);
     Type_ := executableTypeAction |}.

(** A user action that writes a line and then fails. *)
Definition shout : executable :=
  {| Name := "shout";
     Func := fun _ => AppendLog "lost" (Return (Some (ErrExternal "boom")));
     Type_ := executableTypeAction |}.

(** An extension method that calls [shout] through its engine handle and
    carries on whatever comes back. *)
Definition relay : executable :=
  {| Name := "relay";
     Func := fun _ => EngineCall "main" "shout" [] None (fun _ _ => Return None);
     Type_ := executableTypePrecompile |}.

(** An extension method that writes a line, calls [greet] through its engine
    handle, and writes another line. *)
Definition wrap : executable :=
  {| Name := "wrap";
     Func := fun _ =>
       AppendLog "before"
         (EngineCall "main" "greet" [] None
            (fun _ res =>
               match res with
               | inl _ => AppendLog "after" (Return None)
               | inr err => Return (Some err)
               end));
     Type_ := executableTypePrecompile |}.

Definition mainFunctions : gmap string executable :=
  <["greet" := greet]>
    (<["shout" := shout]>
       (<["relay" := relay]>
          (<["wrap" := wrap]>
             (<["notice" := funcDefToExecutable (H := host) "notice" noticeDef]>
                (<["abs" := funcDefToExecutable (H := host) "abs" absDef]> ∅))))).

Definition mainNamespace : namespace :=
  {| availableFunctions := mainFunctions;
     tables := ∅;
     onDeploy := Return None;
     onUndeploy := Return None;
     ns_namespaceType := namespaceTypeSystem;
     methods := ∅ |}.

Definition interp : baseInterpreter :=
  {| namespaces := <["main" := mainNamespace]> ∅;
     bi_accessController := {| registered := {["main"]}; grants := ∅ |} |}.

(** A read-write handle that answers every query with one row. *)
Definition rw : DB :=
  {| access := Some ReadWrite;
     respond := fun _ _ _ => ([[AnyInt 7]], None) |}.

(** A read-only handle. *)
Definition ro : DB :=
  {| access := Some ReadOnly;
     respond := fun _ _ _ => ([[AnyInt 7]], None) |}.

(** A handle without [AccessMode()]. *)
Definition plain : DB :=
  {| access := None;
     respond := fun _ _ _ => ([], None) |}.

(** A handle that answers every query with two rows. *)
Definition twoRows : DB :=
  {| access := Some ReadWrite;
     respond := fun _ _ _ => ([[AnyInt 7]; [AnyInt 8]], None) |}.

(** The namespace an extension brings along: two methods and a table. *)
Definition ping : executable :=
  {| Name := "ping";
     Func := fun _ => AppendLog "extension ping" (Return None);
     Type_ := executableTypePrecompile |}.

Definition balance : executable :=
  {| Name := "balance";
     Func := fun _ => Return None;
     Type_ := executableTypePrecompile |}.

Definition extensionNamespace : namespace :=
  {| availableFunctions := <["ping" := ping]> (<["balance" := balance]> ∅);
     tables := <["balances" := {| TableName := "balances"; TableColumns := ["owner"; "amount"] |}]> ∅;
     onDeploy := Return None;
     onUndeploy := Return None;
     ns_namespaceType := namespaceTypeExtension;
     methods := <["ping" := ping]> (<["balance" := balance]> ∅) |}.

(** A persisted catalog: the namespaces [main] and [tokens], one table and
    one action [ping] in [tokens], and one extension in use under the alias
    [tokens]. *)
Definition store : Store (H := host) :=
  {| Functions := functions;
     Action := string * prog;
     makeActionToExecutable := fun _ a =>
       {| Name := a.1; Func := fun _ => a.2; Type_ := executableTypeAction |};
     Precompile := namespace;
     ExtInstance := string;
     querySchemaExists := fun _ => ([true], None);
     initSQL := fun d => inl d;
     listNamespaces := fun _ =>
       inl [{| nsName := "main"; nsType := namespaceTypeSystem |};
            {| nsName := "tokens"; nsType := namespaceTypeUser |}];
     newAccessController := fun _ => inl {| registered := ∅; grants := ∅ |};
     listTablesInNamespace := fun _ name =>
       inl (if String.eqb name "tokens"
            then [{| TableName := "holders"; TableColumns := ["id"] |}]
            else []);
     listActionsInNamespace := fun _ name =>
       inl (if String.eqb name "tokens"
            then [("ping", AppendLog "user ping" (Return None))]
            else []);
     getExtensionInitializationMetadata := fun _ =>
       inl [{| ExtName := "erc20"; Alias := "tokens"; Metadata := ∅ |}];
     RegisteredPrecompiles := <["erc20" := extensionNamespace]> ∅;
     initializeExtension := fun _ sysExt alias _ => inl (sysExt, alias);
     OnStart := fun _ _ _ => None |}.

(** The user action [ping] as it is loaded for [tokens]. *)
Definition userPing : executable :=
  {| Name := "ping";
     Func := fun _ => AppendLog "user ping" (Return None);
     Type_ := executableTypeAction |}.

(** The namespace [tokens] as loaded from the persisted catalog, and the
    interpreter that holds it when the extension loop starts. *)
Definition tokensNamespace : namespace :=
  {| availableFunctions := <["ping" := userPing]> ∅;
     tables := <["holders" := {| TableName := "holders"; TableColumns := ["id"] |}]> ∅;
     onDeploy := Return None;
     onUndeploy := Return None;
     ns_namespaceType := namespaceTypeUser;
     methods := ∅ |}.

Definition loaded : baseInterpreter :=
  {| namespaces := <["tokens" := tokensNamespace]> (<["main" := mainNamespace]> ∅);
     bi_accessController := {| registered := {["main"; "tokens"]}; grants := ∅ |} |}.

Definition tokensExtension : storedExtension :=
  {| ExtName := "erc20"; Alias := "tokens"; Metadata := ∅ |}.

Definition ctx : EngineContext := EngineCtx 0.

Definition w0 : world := {| heap := []; trace := [] |}.

Definition text (s : string) : Value := {| val_Type := textType; RawValue := AnyString s |}.

Definition int (z : Z) : Value := {| val_Type := intType; RawValue := AnyInt z |}.

End Demo.

(** ** Vocabulary for the further properties *)

(** Every namespace the interpreter holds is known to its access
    controller. *)
Definition namespaces_registered (interp : baseInterpreter) : Prop :=
  forall name,
    is_Some (namespaces interp !! name) ->
    name ∈ registered (bi_accessController interp).

(** A caller-facing row as [rowToCommonRow] makes it: the type and the raw
    value at each position come from one and the same value, so the two
    arrays run in parallel. *)
Definition parallel (r : Row) : Prop :=
  exists vals : list Value,
    ColumnTypes r = map val_Type vals /\ RowValues r = map RawValue vals.




Module Demo2.

(** The interpreter [NewInterpreter] builds from the sample catalog. *)
Definition constructed : ThreadSafeInterpreter :=
  match NewInterpreter (H0 := Demo.store) Demo.rw with
  | inl t => t
  | inr _ => {| mu := {| readers := 0; writer := false |}; ts_i := Demo.interp |}
  end.

Definition tokensListing : namespaceInfo :=
  {| nsName := "tokens"; nsType := namespaceTypeUser |}.

Definition emptyInterpreter : baseInterpreter :=
  {| namespaces := ∅; bi_accessController := {| registered := ∅; grants := ∅ |} |}.

(** The interpreter after the namespace [tokens] has been loaded into an
    empty one. *)
Definition loadedTokens : baseInterpreter :=
  match loadNamespace (H0 := Demo.store) Demo.rw emptyInterpreter tokensListing with
  | inl interp => interp
  | inr _ => emptyInterpreter
  end.


End Demo2.

(** * Theorems *)

(** ** The regular-expression matcher is the language of the expression *)

Module RegexpFacts.
Import Regexp.

Lemma append_empty_inv (s1 s2 : string) : s1 +:+ s2 = "" -> s1 = "" /\ s2 = "".
Proof. destruct s1; simpl; [tauto | discriminate]. Qed.

Lemma nullable_Matches r : nullable r = true <-> Matches r "".
Proof.
  split.
  - induction r; simpl; intros Hn; try discriminate.
    + constructor.
    + apply andb_prop in Hn as [H1 H2].
      change "" with ("" +:+ ""). constructor; auto.
    + apply orb_prop in Hn as [H1 | H2]; [apply MAltL | apply MAltR]; auto.
    + constructor.
  - intros Hm. remember "" as s eqn:Es.
    induction Hm; simpl; subst; try discriminate; auto.
    + apply append_empty_inv in Es as [-> ->].
      rewrite IHHm1, IHHm2; auto.
    + rewrite IHHm; auto.
    + rewrite IHHm; auto using orb_true_r.
Qed.

Lemma Matches_deriv_sound c r : forall s, Matches (deriv c r) s -> Matches r (String c s).
Proof.
  induction r; simpl; intros s Hm.
  - inversion Hm.
  - inversion Hm.
  - destruct (p c) eqn:Hp; inversion Hm; subst. by constructor.
  - destruct (nullable r1) eqn:Hn.
    + inversion Hm as [| | | ? ? ? Hl | ? ? ? Hr | |]; subst.
      * inversion Hl; subst.
        change (String c (s1 +:+ s2)) with (String c s1 +:+ s2).
        constructor; auto.
      * change (String c s) with ("" +:+ String c s).
        constructor; [by apply nullable_Matches | auto].
    + inversion Hm; subst.
      change (String c (s1 +:+ s2)) with (String c s1 +:+ s2).
      constructor; auto.
  - inversion Hm; subst; [apply MAltL | apply MAltR]; auto.
  - inversion Hm; subst.
    change (String c (s1 +:+ s2)) with (String c s1 +:+ s2).
    constructor; auto.
Qed.

Lemma Matches_deriv_complete r s' :
  Matches r s' -> forall c s, s' = String c s -> Matches (deriv c r) s.
Proof.
  induction 1 as [ | p c' Hp | r1 r2 s1 s2 H1 IH1 H2 IH2 | r1 r2 s0 H1 IH1
                 | r1 r2 s0 H2 IH2 | | r s1 s2 H1 IH1 H2 IH2 ];
    intros c s E; simpl.
  - discriminate.
  - injection E as -> <-. rewrite Hp. constructor.
  - destruct s1 as [|a s1']; simpl in E.
    + apply nullable_Matches in H1. rewrite H1. apply MAltR. by apply IH2.
    + injection E as -> <-.
      destruct (nullable r1); [apply MAltL |]; constructor; auto.
  - apply MAltL. by apply IH1.
  - apply MAltR. by apply IH2.
  - discriminate.
  - destruct s1 as [|a s1']; simpl in E.
    + by apply IH2.
    + injection E as -> <-. constructor; auto.
Qed.

Lemma MatchString_Matches s : forall r, MatchString r s = true <-> Matches r s.
Proof.
  induction s as [|c s IH]; intros r; simpl.
  - apply nullable_Matches.
  - rewrite IH. split.
    + apply Matches_deriv_sound.
    + intros Hm. by eapply Matches_deriv_complete.
Qed.

Lemma Matches_Star_Class p s :
  Matches (Star (Class p)) s <-> Forall (fun c => p c = true) (list_ascii_of_string s).
Proof.
  split.
  - intros Hm. remember (Star (Class p)) as r eqn:Er.
    induction Hm; try discriminate; simpl.
    + constructor.
    + injection Er as ->. inversion Hm1; subst. simpl. constructor; auto.
  - induction s as [|c s IH]; simpl; intros Hall.
    + constructor.
    + inversion Hall; subst.
      change (String c s) with (String c "" +:+ s).
      constructor; [by constructor | auto].
Qed.

End RegexpFacts.

(** ** Variable names *)

Lemma identRegexp_spec s :
  Regexp.MatchString identRegexp s = true <->
  exists c rest, s = String c rest /\ isLetter c = true /\ charset_ok rest.
Proof.
  rewrite RegexpFacts.MatchString_Matches. unfold identRegexp, charset_ok. split.
  - intros Hm. inversion Hm as [| | ? ? s1 s2 H1 H2 | | | |]; subst.
    inversion H1; subst. simpl.
    apply RegexpFacts.Matches_Star_Class in H2. eauto.
  - intros (c & rest & -> & Hc & Hrest).
    change (String c rest) with (String c "" +:+ rest).
    constructor; [by constructor | by apply RegexpFacts.Matches_Star_Class].
Qed.

Lemma HasPrefix_sigil s : HasPrefix s "$" = true <-> exists rest, s = String "$" rest.
Proof.
  unfold HasPrefix. destruct s as [|c s]; cbn [String.prefix].
  - split; [discriminate | intros [? ?]; discriminate].
  - destruct (ascii_dec "$" c) as [<- | Hne].
    + split; eauto. intros _. by destruct s.
    + split; [discriminate | intros [? E]; congruence].
Qed.

Lemma isLetter_isIdentChar c : isLetter c = true -> isIdentChar c = true.
Proof. unfold isIdentChar. intros ->. reflexivity. Qed.

(** C6, as amended: [isValidVarName] accepts exactly the strings that begin
    with the sigil, continue with an ASCII letter, hold only ASCII letters,
    digits and underscores after the sigil, and are no longer than
    [MAX_IDENT_NAME_LENGTH] behind the sigil. *)
Theorem isValidVarName_accepts_iff (max : nat) (s : string) :
  isValidVarName max s = None <-> var_rule max s.
Proof.
  unfold isValidVarName, var_rule. split.
  - destruct (HasPrefix s "$") eqn:Hp; simpl; [| discriminate].
    apply HasPrefix_sigil in Hp as [rest ->]. simpl.
    destruct (Regexp.MatchString identRegexp rest) eqn:Hm; simpl; [| discriminate].
    destruct (Nat.ltb max (String.length rest)) eqn:Hl; [discriminate |].
    intros _. exists rest. apply Nat.ltb_ge in Hl.
    apply identRegexp_spec in Hm as (c & rest' & -> & Hc & Hrest).
    repeat split; auto.
    + exists c, rest'. auto.
    + unfold charset_ok. simpl. constructor; auto using isLetter_isIdentChar.
  - intros (rest & -> & (c & rest' & -> & Hc) & Hcs & Hlen).
    assert (Hp : HasPrefix (String "$" (String c rest')) "$" = true)
      by (apply HasPrefix_sigil; eauto).
    assert (Hm : Regexp.MatchString identRegexp (String c rest') = true).
    { apply identRegexp_spec. exists c, rest'. repeat split; auto.
      unfold charset_ok in *. simpl in Hcs. by inversion Hcs. }
    apply Nat.ltb_ge in Hlen.
    rewrite Hp. cbn [negb from1]. rewrite Hm. cbn [negb]. by rewrite Hlen.
Qed.

(** C6, as worded, fails: a name whose first character after the sigil is a
    digit meets the three worded conditions and is rejected. *)
Lemma isValidVarName_worded_rule_fails :
  ~ (forall (max : nat) (s : string),
        isValidVarName max s = None <-> worded_var_rule max s).
Proof.
  intros Hall. specialize (Hall 32 "$1abc").
  assert (Hw : worded_var_rule 32 "$1abc").
  { exists "1abc". repeat split; [| simpl; lia].
    unfold charset_ok. simpl. repeat constructor. }
  apply Hall in Hw. vm_compute in Hw. discriminate.
Qed.

Lemma isValidVarName_accepts_iff_witness :
  isValidVarName 32 "$user_id1" = None <-> var_rule 32 "$user_id1".
Proof. apply (isValidVarName_accepts_iff 32 "$user_id1"). Defined.

(** ** Resolution in [call] *)

Section CallFacts.

Context `{Host}.

Lemma call_no_access_mode depth i ctx d namespace action args resultFn toplevel w :
  access d = None ->
  call depth i ctx d namespace action args resultFn toplevel w
  = (inl (inr ErrNoAccessModer, []), w).
Proof.
  intros Ha. unfold call, call_body, newExecCtx, bind, ret. by rewrite Ha.
Qed.

Lemma call_namespace_missing depth i ctx d namespace action args resultFn toplevel w am :
  access d = Some am ->
  namespaces i !! namespaceKey namespace = None ->
  (call depth i ctx d namespace action args resultFn toplevel w).1
  = inl (inr (ErrNamespaceNotFound (namespaceKey namespace)), []).
Proof.
  intros Ha Hns. unfold call, call_body, newExecCtx, bind, ret, allocLogs.
  rewrite Ha. cbn. fold (namespaceKey namespace). by rewrite Hns.
Qed.

Lemma call_action_missing depth i ctx d namespace action args resultFn toplevel w am ns :
  access d = Some am ->
  namespaces i !! namespaceKey namespace = Some ns ->
  availableFunctions ns !! ToLower action = None ->
  (call depth i ctx d namespace action args resultFn toplevel w).1
  = inl (inr (ErrUnknownAction (ToLower action) (namespaceKey namespace)), []).
Proof.
  intros Ha Hns Hact. unfold call, call_body, newExecCtx, bind, ret, allocLogs.
  rewrite Ha. cbn. fold (namespaceKey namespace). by rewrite Hns, Hact.
Qed.

Lemma call_Function depth i ctx d namespace action args resultFn toplevel w am ns exec :
  access d = Some am ->
  namespaces i !! namespaceKey namespace = Some ns ->
  availableFunctions ns !! ToLower action = Some exec ->
  Type_ exec = executableTypeFunction ->
  call depth i ctx d namespace action args resultFn toplevel w
  = (inl (inr (ErrBuiltinNotCallable (ToLower action)), []),
     {| heap := heap w ++ [[]]; trace := trace w |}).
Proof.
  intros Ha Hns Hact Hty. unfold call, call_body, newExecCtx, bind, ret, allocLogs.
  rewrite Ha. cbn. fold (namespaceKey namespace). by rewrite Hns, Hact, Hty.
Qed.

(** [call] reads the namespace and the action only through their lower-cased
    forms. *)
Lemma call_lowercased depth i ctx d ns1 ns2 a1 a2 args resultFn toplevel :
  namespaceKey ns1 = namespaceKey ns2 ->
  ToLower a1 = ToLower a2 ->
  call depth i ctx d ns1 a1 args resultFn toplevel
  = call depth i ctx d ns2 a2 args resultFn toplevel.
Proof.
  intros Hn Ha. unfold call, call_body. fold (namespaceKey ns1) (namespaceKey ns2).
  by rewrite Hn, Ha.
Qed.

(** C1: a call that resolves to a [Function]-typed executable fails: it
    returns an error and no [CallResult], the error is never the
    unknown-action error, and it is the cannot-be-called-directly error on
    every database handle that reports an access mode (a handle that does
    not is turned away by [newExecCtx] before anything is resolved). The
    trace is left as it was: the executable's function is not entered, no
    query is sent and no line is logged. *)
Theorem call_rejects_Function depth i ctx d namespace action args resultFn toplevel
    w ns exec :
  namespaces i !! namespaceKey namespace = Some ns ->
  availableFunctions ns !! ToLower action = Some exec ->
  Type_ exec = executableTypeFunction ->
  let out := call depth i ctx d namespace action args resultFn toplevel w in
  (exists err,
      out.1 = inl (inr err, [])
      /\ (forall a n, err <> ErrUnknownAction a n)
      /\ (is_Some (access d) -> err = ErrBuiltinNotCallable (ToLower action)))
  /\ trace out.2 = trace w.
Proof.
  intros Hns Hact Hty out. subst out.
  destruct (access d) as [am |] eqn:Ha.
  - rewrite (call_Function _ _ _ _ _ _ _ _ _ _ am ns exec) by done. cbn.
    split; [| done]. exists (ErrBuiltinNotCallable (ToLower action)).
    split; [done |]. split; [discriminate | done].
  - rewrite call_no_access_mode by done. cbn.
    split; [| done]. exists ErrNoAccessModer.
    split; [done |]. split; [discriminate |]. by intros [? [=]].
Qed.

(** C2: an empty namespace argument stands for the default namespace; the
    namespace and the action reach the lookups only in their lower-cased
    forms; on a database handle that reports an access mode, a missing
    namespace gives the namespace-not-found error whatever the action is,
    and a missing action in a namespace that exists gives the unknown-action
    error; the two errors differ. (A handle without an access mode is turned
    away by [newExecCtx] before anything is resolved.) *)
Theorem call_resolves_namespace_then_action depth i ctx d namespace action args
    resultFn toplevel w :
  let out := call depth i ctx d namespace action args resultFn toplevel w in
  call depth i ctx d "" action args resultFn toplevel
    = call depth i ctx d DefaultNamespace action args resultFn toplevel
  /\ (forall namespace' action',
         namespaceKey namespace' = namespaceKey namespace ->
         ToLower action' = ToLower action ->
         call depth i ctx d namespace' action' args resultFn toplevel w = out)
  /\ (is_Some (access d) ->
      namespaces i !! namespaceKey namespace = None ->
      out.1 = inl (inr (ErrNamespaceNotFound (namespaceKey namespace)), []))
  /\ (forall ns,
         is_Some (access d) ->
         namespaces i !! namespaceKey namespace = Some ns ->
         availableFunctions ns !! ToLower action = None ->
         out.1 = inl (inr (ErrUnknownAction (ToLower action) (namespaceKey namespace)), []))
  /\ (forall a n n', ErrUnknownAction a n <> ErrNamespaceNotFound n').
Proof.
  intros out. subst out. split; [| split; [| split; [| split]]].
  - by apply call_lowercased.
  - intros namespace' action' Hn Hact.
    by rewrite (call_lowercased depth i ctx d namespace' namespace action' action).
  - intros [am Ha] Hns. by eapply call_namespace_missing.
  - intros ns [am Ha] Hns Hact. by eapply call_action_missing.
  - intros a n n'. discriminate.
Qed.

End CallFacts.

(** ** Built-in functions as executables *)

Section BuiltinFacts.

Context `{Host}.

Variable callRec : engineCall.
Variable executeRec : engineExecute.

Lemma alter_allocated (f : list string -> list string) p (h : list (list string)) buf :
  h !! p = Some buf -> alter f p h = <[p := f buf]> h.
Proof.
  intros Hp. apply list_eq. intros j. destruct (decide (j = p)) as [-> | Hne].
  - rewrite list_lookup_alter, Hp. simpl. rewrite decide_True by done.
    rewrite list_lookup_insert_eq; [done |]. by eapply lookup_lt_Some.
  - by rewrite list_lookup_alter_ne, list_lookup_insert_ne.
Qed.

Lemma appendLog_allocated p line w buf :
  heap w !! p = Some buf ->
  appendLog p line w
  = (inl tt, {| heap := <[p := buf ++ [line]]> (heap w);
                trace := trace w ++ [EvLog p line] |}).
Proof.
  intros Hp. unfold appendLog. rewrite Hp.
  by rewrite (alter_allocated _ _ _ buf).
Qed.

(** Running the [notice] executable on one string argument. *)
Lemma run_notice funcDef e fn fr w arg line buf retTyp :
  ValidateArgsFunc funcDef [val_Type arg] = inl retTyp ->
  RawValue arg = AnyString line ->
  heap w !! logs e = Some buf ->
  run callRec executeRec e fn (Func (funcDefToExecutable "notice" funcDef) [arg]) fr w
  = (inl (None, fr),
     {| heap := <[logs e := buf ++ [line]]> (heap w);
        trace := trace w ++ [EvLog (logs e) line] |}).
Proof.
  intros Hval Hraw Hbuf. cbn. rewrite Hval, Hraw. cbn.
  unfold bind. by rewrite (appendLog_allocated _ _ _ buf).
Qed.

Lemma funcDefToExecutable_Type funcName funcDef :
  Type_ (funcDefToExecutable funcName funcDef) = executableTypeFunction.
Proof. reflexivity. Qed.

(** Running a scalar built-in other than [notice], up to the query. *)
Lemma run_scalar funcName funcDef e fn fr w args retTyp zeroVal pgFormat :
  funcName <> "notice" ->
  ValidateArgsFunc funcDef (map val_Type args) = inl retTyp ->
  NewZeroValue retTyp = inl zeroVal ->
  PGFormatFunc funcDef (imap (fun i _ => "$" +:+ pretty (i + 1)) args) = inl pgFormat ->
  run callRec executeRec e fn (Func (funcDefToExecutable funcName funcDef) args) fr w
  = let sql := "SELECT " +:+ pgFormat +:+ ";" in
    let w' := {| heap := heap w; trace := trace w ++ [EvQuery sql args] |} in
    let answer := respond (db e) (trace w) sql args in
    match answer.2 with
    | Some err => (inl (Some err, fr), w')
    | None =>
        if negb (Nat.eqb (length answer.1) 1)
        then (inl (Some (ErrExpectedOneRow (length answer.1)), fr), w')
        else run callRec executeRec e fn
               (Yield {| columns := [funcName];
                         Values := List.last (map (scanInto [zeroVal]) answer.1) [zeroVal] |}
                      (fun r => Return r)) fr w'
    end.
Proof.
  intros Hname Hval Hzero Hfmt. apply String.eqb_neq in Hname.
  cbn. rewrite Hval, Hname, Hzero, Hfmt. cbn.
  unfold bind, query.
  destruct (respond (db e) (trace w) _ args) as [raws [err |]]; cbn; [done |].
  rewrite length_map. by destruct (Nat.eqb (length raws) 1).
Qed.

(** C4: a scalar built-in other than [notice], once its arguments are
    validated and its zero value and query text are built, sends the
    formatted query to the database handle exactly once. When the query
    comes back with a number of rows other than one it fails with the
    expected-one-row error and the result function is not called; when it
    comes back with one row the result function is called exactly once, with
    the conversion of a row whose only column is the function name and whose
    only Value has the return type the descriptor computed. *)
Theorem scalar_builtin_expects_one_row funcName funcDef e f fr w args retTyp
    zeroVal pgFormat raws :
  funcName <> "notice" ->
  ValidateArgsFunc funcDef (map val_Type args) = inl retTyp ->
  NewZeroValue retTyp = inl zeroVal ->
  PGFormatFunc funcDef (imap (fun i _ => "$" +:+ pretty (i + 1)) args) = inl pgFormat ->
  respond (db e) (trace w) ("SELECT " +:+ pgFormat +:+ ";") args = (raws, None) ->
  let out := run callRec executeRec e (Some f)
               (Func (funcDefToExecutable funcName funcDef) args) fr w in
  out.2 = {| heap := heap w;
             trace := trace w ++ [EvQuery ("SELECT " +:+ pgFormat +:+ ";") args] |}
  /\ (length raws <> 1 ->
      out.1 = inl (Some (ErrExpectedOneRow (length raws)), fr))
  /\ (length raws = 1 ->
      exists v,
        val_Type v = retTyp /\
        let r := rowToCommonRow {| columns := [funcName]; Values := [v] |} in
        out.1 = inl (f (delivered fr) r,
                     {| fscope := fscope fr; delivered := delivered fr ++ [r] |})).
Proof.
  intros Hname Hval Hzero Hfmt Hq out. subst out.
  rewrite (run_scalar funcName funcDef e (Some f) fr w args retTyp zeroVal pgFormat)
    by done.
  cbv zeta. rewrite Hq. cbn [fst snd].
  destruct (Nat.eqb (length raws) 1) eqn:Hlen; cbn [negb].
  - apply Nat.eqb_eq in Hlen. split; [done |]. split; [lia |]. intros _.
    destruct raws as [| raw [| ? ?]]; try discriminate. cbn.
    pose proof (NewZeroValue_Type _ _ Hzero) as Hty.
    destruct raw as [| x raw]; cbn.
    + by exists zeroVal.
    + by exists {| val_Type := val_Type zeroVal; RawValue := x |}.
  - apply Nat.eqb_neq in Hlen. split; [done |]. split; [done | lia].
Qed.

End BuiltinFacts.

(** ** What [call] does once it has resolved an action *)

Section CallRuns.

Context `{Host}.

Lemma call_unfold depth i ctx d namespace action args resultFn toplevel w am ns exec argVals :
  access d = Some am ->
  namespaces i !! namespaceKey namespace = Some ns ->
  availableFunctions ns !! ToLower action = Some exec ->
  Type_ exec = executableTypeAction \/ Type_ exec = executableTypePrecompile ->
  convertArgs args = inl argVals ->
  call depth i ctx d namespace action args resultFn toplevel w
  = let e := contextIn i ctx d am w in
    let w1 := {| heap := heap w ++ [[]];
                 trace := trace w ++ [EvInvoke (Name exec) argVals] |} in
    match run (nested_call depth) (nested_execute depth) e (orNoop resultFn)
              (Func exec argVals) (freshFrame (namespaceKey namespace) toplevel) w1 with
    | (inl (Some err, fr), w2) => (inl (inr err, delivered fr), w2)
    | (inl (None, fr), w2) =>
        match heap w2 !! logs e with
        | Some buf => (inl (inl {| Logs := buf |}, delivered fr), w2)
        | None => (inr (Panics PanicNilPointer), w2)
        end
    | (inr x, w2) => (inr x, w2)
    end.
Proof.
  intros Ha Hns Hact Hty Hargs.
  unfold call, call_body, newExecCtx, bind, ret, allocLogs.
  rewrite Ha. cbn. fold (namespaceKey namespace). rewrite Hns, Hact, Hargs.
  unfold contextIn, freshFrame, orNoop, observe, readLogs. cbn.
  destruct Hty as [-> | ->];
    (destruct (run _ _ _ _ _ _ _) as [[[[err |] fr] | x] w2]; cbn; [done | | done];
     by destruct (heap w2 !! length (heap w))).
Qed.

(** C3, as amended. The function of the [notice] executable, run on one
    string argument that its descriptor accepts in an execution context whose
    log buffer is allocated, appends the argument to that buffer, sends no
    query, hands no row to the result function and returns no error; an
    action with that body, called with the string, returns exactly that line
    in [CallResult.Logs], with no row emitted and no query sent. A direct
    call of [notice] itself does not reach the function: the executable is
    [Function]-typed and the call fails with the cannot-be-called-directly
    error. *)
Theorem notice_logs_without_query funcDef (arg : Value) (line : string) retTyp :
  ValidateArgsFunc funcDef [val_Type arg] = inl retTyp ->
  RawValue arg = AnyString line ->
  let noticeExec := funcDefToExecutable "notice" funcDef in
  (forall callRec executeRec e fn fr w buf,
      heap w !! logs e = Some buf ->
      run callRec executeRec e fn (Func noticeExec [arg]) fr w
      = (inl (None, fr),
         {| heap := <[logs e := buf ++ [line]]> (heap w);
            trace := trace w ++ [EvLog (logs e) line] |}))
  /\ (forall depth i ctx d namespace action resultFn toplevel w am ns name,
         access d = Some am ->
         namespaces i !! namespaceKey namespace = Some ns ->
         availableFunctions ns !! ToLower action
           = Some {| Name := name; Func := Func noticeExec; Type_ := executableTypeAction |} ->
         NewValue (AnyString line) = inl arg ->
         let out := call depth i ctx d namespace action [AnyString line] resultFn toplevel w in
         out.1 = inl (inl {| Logs := [line] |}, [])
         /\ trace out.2 = trace w ++ [EvInvoke name [arg]; EvLog (length (heap w)) line])
  /\ (forall depth i ctx d namespace action args resultFn toplevel w am ns,
         access d = Some am ->
         namespaces i !! namespaceKey namespace = Some ns ->
         availableFunctions ns !! ToLower action = Some noticeExec ->
         call depth i ctx d namespace action args resultFn toplevel w
         = (inl (inr (ErrBuiltinNotCallable (ToLower action)), []),
            {| heap := heap w ++ [[]]; trace := trace w |})).
Proof.
  intros Hval Hraw noticeExec. split; [| split].
  - intros callRec executeRec e fn fr w buf Hbuf. by eapply run_notice.
  - intros depth i ctx d namespace action resultFn toplevel w am ns name Ha Hns Hact Hnew out.
    subst out.
    rewrite (call_unfold depth i ctx d namespace action [AnyString line] resultFn toplevel
               w am ns {| Name := name; Func := Func noticeExec;
                          Type_ := executableTypeAction |} [arg]);
      [| done | done | done | by left | by cbn; rewrite Hnew].
    cbv zeta. cbn [Func Name].
    rewrite (run_notice _ _ funcDef _ _ _ _ arg line [] retTyp); [| done | done |].
    + cbn [logs contextIn heap]. rewrite list_lookup_insert_eq.
      * cbn. split; [done |]. by rewrite <- app_assoc.
      * rewrite length_app. cbn. lia.
    + cbn. by rewrite lookup_app_r, Nat.sub_diag.
  - intros depth i ctx d namespace action args resultFn toplevel w am ns Ha Hns Hact.
    by eapply call_Function.
Qed.

End CallRuns.

(** C3, as worded, fails: with the built-in [notice] registered in [main],
    the call of the scenario is rejected and returns no [CallResult]. *)
Lemma call_notice_directly_is_rejected :
  let out := call (H := Demo.host) 0 Demo.interp Demo.ctx Demo.rw "main" "notice"
               [AnyString "hello"] (Some noopSink) true Demo.w0 in
  out.1 = inl (inr (ErrBuiltinNotCallable "notice"), [])
  /\ (forall res rows, out.1 <> inl (inl res, rows)).
Proof. vm_compute. split; [reflexivity | discriminate]. Qed.

Lemma notice_logs_without_query_witness :
  run (nested_call (H := Demo.host) 0) (nested_execute (H := Demo.host) 0)
      (contextIn Demo.interp Demo.ctx Demo.rw ReadWrite Demo.w0) (Some noopSink)
      (Func (funcDefToExecutable (H := Demo.host) "notice" Demo.noticeDef) [Demo.text "hello"])
      (freshFrame "main" true) {| heap := [[]]; trace := [] |}
  = (inl (None, freshFrame "main" true),
     {| heap := [["hello"]]; trace := [EvLog 0 "hello"] |}).
Proof.
  apply (proj1 (notice_logs_without_query (H := Demo.host) Demo.noticeDef
                  (Demo.text "hello") "hello" Demo.nullType eq_refl eq_refl)
           _ _ (contextIn Demo.interp Demo.ctx Demo.rw ReadWrite Demo.w0)
           (Some noopSink) (freshFrame "main" true) {| heap := [[]]; trace := [] |} []).
  reflexivity.
Defined.

Lemma call_rejects_Function_witness :
  let out := call (H := Demo.host) 0 Demo.interp Demo.ctx Demo.rw "Main" "ABS"
               [AnyInt 3] None true Demo.w0 in
  (exists err,
      out.1 = inl (inr err, [])
      /\ (forall a n, err <> ErrUnknownAction a n)
      /\ (is_Some (access Demo.rw) -> err = ErrBuiltinNotCallable "abs"))
  /\ trace out.2 = trace Demo.w0.
Proof.
  apply (call_rejects_Function (H := Demo.host) 0 Demo.interp Demo.ctx Demo.rw "Main" "ABS"
           [AnyInt 3] None true Demo.w0 Demo.mainNamespace
           (funcDefToExecutable (H := Demo.host) "abs" Demo.absDef));
    reflexivity.
Defined.

Lemma call_resolves_namespace_then_action_witness :
  let out := call (H := Demo.host) 0 Demo.interp Demo.ctx Demo.ro "Other" "Greet"
               [] None true Demo.w0 in
  out.1 = inl (inr (ErrNamespaceNotFound "other"), []).
Proof.
  apply (call_resolves_namespace_then_action (H := Demo.host) 0 Demo.interp Demo.ctx
           Demo.ro "Other" "Greet" [] None true Demo.w0).
  - by exists ReadOnly.
  - reflexivity.
Defined.

Lemma scalar_builtin_expects_one_row_witness :
  let e := contextIn Demo.interp Demo.ctx Demo.twoRows ReadWrite Demo.w0 in
  let out := run (nested_call (H := Demo.host) 0)
               (nested_execute (H := Demo.host) 0) e (Some noopSink)
               (Func (funcDefToExecutable (H := Demo.host) "abs" Demo.absDef) [Demo.int (-3)])
               (freshFrame "main" true) Demo.w0 in
  out.1 = inl (Some (ErrExpectedOneRow 2), freshFrame "main" true).
Proof.
  intros e out.
  apply (scalar_builtin_expects_one_row (H := Demo.host)
           (nested_call (H := Demo.host) 0) (nested_execute (H := Demo.host) 0)
           "abs" Demo.absDef e noopSink (freshFrame "main" true) Demo.w0 [Demo.int (-3)]
           Demo.intType {| val_Type := Demo.intType; RawValue := AnyNil |} "abs($1)"
           [[AnyInt 7]; [AnyInt 8]]); try reflexivity; try discriminate.
Defined.

(** ** The nil result function *)

Arguments bind : simpl never.
Arguments ret : simpl never.
Arguments throw : simpl never.
Arguments observe : simpl never.
Arguments appendLog : simpl never.
Arguments extendLogs : simpl never.
Arguments readLogs : simpl never.
Arguments allocLogs : simpl never.
Arguments query : simpl never.
Arguments invokeSink : simpl never.

Section NilSink.

Context `{Host}.

Lemma bind_nil_free {A B} (m : M A) (f : A -> M B) w :
  nil_free (m w) -> (forall a w', nil_free (f a w')) -> nil_free (bind m f w).
Proof.
  unfold nil_free, bind. intros Hm Hf.
  destruct (m w) as [[a | x] w']; [apply Hf |].
  cbn in *. intros E. apply Hm. congruence.
Qed.

Lemma ret_nil_free {A} (a : A) w : nil_free (ret a w).
Proof. unfold nil_free, ret. discriminate. Qed.

Lemma observe_nil_free ev w : nil_free (observe ev w).
Proof. unfold nil_free, observe. discriminate. Qed.

Lemma appendLog_nil_free p line w : nil_free (appendLog p line w).
Proof. unfold nil_free, appendLog. destruct (heap w !! p); discriminate. Qed.

Lemma extendLogs_nil_free p lines w : nil_free (extendLogs p lines w).
Proof. unfold nil_free, extendLogs. destruct (heap w !! p); discriminate. Qed.

Lemma readLogs_nil_free p w : nil_free (readLogs p w).
Proof. unfold nil_free, readLogs. destruct (heap w !! p); discriminate. Qed.

Lemma query_nil_free d sql scan args w : nil_free (query d sql scan args w).
Proof. unfold nil_free, query. destruct (respond d _ sql args). discriminate. Qed.

Lemma newExecCtx_nil_free i ctx d namespace toplevel w :
  nil_free (newExecCtx i ctx d namespace toplevel w).
Proof.
  unfold newExecCtx. destruct (access d); [| apply ret_nil_free].
  apply bind_nil_free; [unfold nil_free, allocLogs; discriminate |].
  intros; apply ret_nil_free.
Qed.

Lemma bindParams_nil_free ps : forall sc w, nil_free (bindParams ps sc w).
Proof.
  induction ps as [| p ps IH]; intros sc w; cbn.
  - apply ret_nil_free.
  - destruct (NewValue p.2); [| apply ret_nil_free].
    destruct (isValidVarName _ _); [apply ret_nil_free |].
    destruct (setVariable _ _ _); [| apply ret_nil_free].
    apply bind_nil_free; [apply observe_nil_free | auto].
Qed.

Section Body.

Variable callRec : engineCall.
Variable executeRec : engineExecute.

Hypothesis callRec_nil_free :
  forall i ctx d namespace action args fn toplevel w,
    nil_free (callRec i ctx d namespace action args fn toplevel w).
Hypothesis executeRec_nil_free :
  forall i ctx d statement params fn toplevel w,
    nil_free (executeRec i ctx d statement params fn toplevel w).

Lemma recursiveInterpreter_Call_nil_free r ctx d namespace action args fn w :
  nil_free (recursiveInterpreter_Call callRec r ctx d namespace action args fn w).
Proof.
  unfold recursiveInterpreter_Call.
  apply bind_nil_free; [apply observe_nil_free |]. intros _ w0.
  apply bind_nil_free; [apply callRec_nil_free |].
  intros [[res | err] rows] w'; cbn [fst snd].
  - apply bind_nil_free; [apply extendLogs_nil_free |]. intros _ w1.
    apply bind_nil_free; [apply observe_nil_free | intros; apply ret_nil_free].
  - apply bind_nil_free; [apply observe_nil_free | intros; apply ret_nil_free].
Qed.

Lemma recursiveInterpreter_Execute_nil_free r ctx d statement params fn w :
  nil_free (recursiveInterpreter_Execute executeRec r ctx d statement params fn w).
Proof.
  unfold recursiveInterpreter_Execute.
  apply bind_nil_free; [apply observe_nil_free |]. intros _ w0.
  apply bind_nil_free; [apply executeRec_nil_free |]. intros x w1.
  apply bind_nil_free; [apply observe_nil_free | intros; apply ret_nil_free].
Qed.

Lemma run_nil_free e f p : forall fr w,
  nil_free (run callRec executeRec e (Some f) p fr w).
Proof.
  induction p as [err | msg | line k IH | sql scan args k IH | r k IH | k IH | s k IH
                 | namespace action args nfn k IH | statement params nfn k IH];
    intros fr w; cbn.
  - apply ret_nil_free.
  - unfold nil_free, throw. cbn. discriminate.
  - apply bind_nil_free; [apply appendLog_nil_free | auto].
  - apply bind_nil_free; [apply query_nil_free | auto].
  - apply bind_nil_free; [unfold invokeSink; apply ret_nil_free | auto].
  - auto.
  - auto.
  - apply bind_nil_free; [apply recursiveInterpreter_Call_nil_free | auto].
  - apply bind_nil_free; [apply recursiveInterpreter_Execute_nil_free | auto].
Qed.

Lemma call_body_nil_free i ctx d namespace action args fn toplevel w :
  nil_free (call_body callRec executeRec i ctx d namespace action args fn toplevel w).
Proof.
  unfold call_body.
  apply bind_nil_free; [apply newExecCtx_nil_free |].
  intros [[e fr] | err] w'; [| apply ret_nil_free].
  destruct (namespaces i !! _) as [ns |]; [| apply ret_nil_free].
  destruct (availableFunctions ns !! _) as [exec |]; [| apply ret_nil_free].
  assert (Hrun : nil_free
            ((match convertArgs args with
              | inl argVals =>
                  observe (EvInvoke (Name exec) argVals) ;;;
                  x <- run callRec executeRec e
                         match fn with Some f => Some f | None => Some noopSink end
                         (Func exec argVals) fr ;;
                  match x.1 with
                  | Some err => ret (inr err, delivered x.2)
                  | None => buf <- readLogs (logs e) ;;
                            ret (inl {| Logs := buf |}, delivered x.2)
                  end
              | inr err => ret (inr err, [])
              end) w')).
  { destruct (convertArgs args) as [argVals | err]; [| apply ret_nil_free].
    apply bind_nil_free; [apply observe_nil_free |]. intros _ w1.
    apply bind_nil_free.
    - destruct fn; apply run_nil_free.
    - intros [[err |] fr'] w2; cbn; [apply ret_nil_free |].
      apply bind_nil_free; [apply readLogs_nil_free | intros; apply ret_nil_free]. }
  destruct (Type_ exec); try apply ret_nil_free; exact Hrun.
Qed.

Lemma runStatements_nil_free e f ast : forall index fr w,
  nil_free (runStatements callRec executeRec e (Some f) index ast fr w).
Proof.
  induction ast as [| stmt ast IH]; intros index fr w; cbn.
  - apply ret_nil_free.
  - apply bind_nil_free; [apply observe_nil_free |]. intros _ w1.
    apply bind_nil_free; [apply run_nil_free |].
    intros [[err |] fr'] w2; cbn; [apply ret_nil_free | apply IH].
Qed.

Lemma execute_body_nil_free i ctx d statement params fn toplevel w :
  nil_free (execute_body callRec executeRec i ctx d statement params fn toplevel w).
Proof.
  unfold execute_body.
  destruct (Parse statement) as [ast | err]; [| apply ret_nil_free].
  destruct (Nat.eqb (length ast) 0); [apply ret_nil_free |].
  apply bind_nil_free; [apply newExecCtx_nil_free |].
  intros [[e fr] | err] w'; [| apply ret_nil_free].
  apply bind_nil_free; [apply bindParams_nil_free |].
  intros [[err |] sc] w1; cbn; [apply ret_nil_free |].
  apply bind_nil_free; [| intros; apply ret_nil_free].
  destruct fn; apply runStatements_nil_free.
Qed.

End Body.

Lemma nested_nil_free depth :
  (forall i ctx d namespace action args fn toplevel w,
      nil_free (nested_call depth i ctx d namespace action args fn toplevel w))
  /\ (forall i ctx d statement params fn toplevel w,
         nil_free (nested_execute depth i ctx d statement params fn toplevel w)).
Proof.
  induction depth as [| depth [IHc IHe]]; cbn.
  - split; intros; unfold nil_free, throw; cbn; discriminate.
  - split; intros.
    + by apply call_body_nil_free.
    + by apply execute_body_nil_free.
Qed.

(** Without the substitution a nil result function would be called: a
    closure that yields a row to [nil] panics. *)
Lemma run_nil_sink_panics callRec executeRec e r k fr w :
  run callRec executeRec e None (Yield r k) fr w = (inr (Panics PanicNilFunc), w).
Proof. reflexivity. Qed.

(** C10: [call] and [execute] given a nil result function behave exactly as
    with a result function that ignores every row and returns no error (the
    same result, the same rows, the same final state), and neither ever
    ends in the call of a nil result function. *)
Theorem nil_sink_is_noop depth i ctx d namespace action statement args params toplevel :
  call depth i ctx d namespace action args None toplevel
    = call depth i ctx d namespace action args (Some noopSink) toplevel
  /\ execute depth i ctx d statement params None toplevel
     = execute depth i ctx d statement params (Some noopSink) toplevel
  /\ (forall w, nil_free (call depth i ctx d namespace action args None toplevel w))
  /\ (forall w, nil_free (execute depth i ctx d statement params None toplevel w)).
Proof.
  destruct (nested_nil_free depth) as [Hc He].
  split; [reflexivity |]. split; [reflexivity |]. split; intros w.
  - by apply call_body_nil_free.
  - by apply execute_body_nil_free.
Qed.

End NilSink.

(** ** Log lines across nested calls *)

Section Accounting.

Lemma accounts_nil : accounts [] [].
Proof.
  split; [| done]. intros rest stack top. cbn. by rewrite app_nil_r.
Qed.

Lemma written_app t1 t2 : written (t1 ++ t2) = written t1 ++ written t2.
Proof. unfold written. apply omap_app. Qed.

Lemma accounts_app t1 d1 t2 d2 :
  accounts t1 d1 -> accounts t2 d2 -> accounts (t1 ++ t2) (d1 ++ d2).
Proof.
  intros [Hn1 Hw1] [Hn2 Hw2]. split.
  - intros rest stack top. by rewrite <- app_assoc, Hn1, Hn2, app_assoc.
  - intros Hall. apply Forall_app in Hall as [H1 H2].
    by rewrite written_app, <- Hw1, <- Hw2.
Qed.

Lemma accounts_log p line : accounts [EvLog p line] [line].
Proof. split; [| done]. by intros rest stack top. Qed.

Lemma accounts_silent ev : silent ev -> accounts [ev] [].
Proof.
  intros Hs. split.
  - intros rest stack top. rewrite app_nil_r. by destruct ev.
  - intros _. by destruct ev.
Qed.

Lemma accounts_returned namespace action tr delta :
  accounts tr delta ->
  accounts ([EvNestedCall namespace action] ++ tr ++ [EvNestedCallReturned]) delta.
Proof.
  intros [Hn Hw]. split.
  - intros rest stack top. cbn. by rewrite <- app_assoc, Hn.
  - intros Hall. apply Forall_app in Hall as [_ Hall].
    apply Forall_app in Hall as [Hall _].
    cbn. rewrite written_app. cbn. rewrite app_nil_r. auto.
Qed.

Lemma accounts_failed namespace action tr delta err :
  accounts tr delta ->
  accounts ([EvNestedCall namespace action] ++ tr ++ [EvNestedCallFailed err]) [].
Proof.
  intros [Hn Hw]. split.
  - intros rest stack top. cbn. by rewrite <- app_assoc, Hn, app_nil_r.
  - intros Hall. apply Forall_app in Hall as [_ Hall].
    apply Forall_app in Hall as [_ Hall]. by inversion Hall.
Qed.

Lemma accounts_execute statement tr delta :
  accounts tr delta ->
  accounts ([EvNestedExecute statement] ++ tr ++ [EvNestedExecuteReturned]) [].
Proof.
  intros [Hn Hw]. split.
  - intros rest stack top. cbn. by rewrite <- app_assoc, Hn, app_nil_r.
  - intros Hall. apply Forall_app in Hall as [Hall _]. by inversion Hall.
Qed.

Lemma accounts_carried tr delta : accounts tr delta -> carried tr [] [] = delta.
Proof. intros [Hn _]. specialize (Hn [] [] []). by rewrite app_nil_r in Hn. Qed.

Lemma evolves_refl own w : evolves own w [] [] w.
Proof.
  split; [apply accounts_nil |]. split; [done |]. split; [done |].
  intros l buf _ Hl. by rewrite app_nil_r.
Qed.

Lemma evolves_trans own w t1 d1 w1 t2 d2 w2 :
  evolves own w t1 d1 w1 -> evolves own w1 t2 d2 w2 ->
  evolves own w (t1 ++ t2) (d1 ++ d2) w2.
Proof.
  intros (Ha1 & Hl1 & Ho1 & Hb1) (Ha2 & Hl2 & Ho2 & Hb2).
  split; [by apply accounts_app |]. split; [lia |]. split.
  - intros l Hl Hown. rewrite Ho2, Ho1; [done.. | lia | done].
  - intros l buf Hown Hbuf. rewrite app_assoc. eauto.
Qed.

Lemma evolves_allocated own w tr delta w' :
  allocated own w -> evolves own w tr delta w' -> allocated own w'.
Proof.
  intros Hal (_ & _ & _ & Hb) l Hown.
  destruct (Hal l Hown) as [buf Hbuf]. rewrite (Hb l buf Hown Hbuf). eauto.
Qed.

(** An event that records something other than a log line. *)
Lemma evolves_silent own w ev :
  silent ev ->
  evolves own w [ev] [] {| heap := heap w; trace := trace w ++ [ev] |}.
Proof.
  intros Hs. split; [by apply accounts_silent |]. split; [done |]. split; [done |].
  intros l buf _ Hl. cbn. by rewrite app_nil_r.
Qed.

End Accounting.

Section Steps.

Lemma bind_inv {A B} (m : M A) (f : A -> M B) w r w' :
  bind m f w = (r, w') ->
  (exists x, m w = (inr x, w') /\ r = inr x)
  \/ (exists a w1, m w = (inl a, w1) /\ f a w1 = (r, w')).
Proof.
  unfold bind. destruct (m w) as [[a | x] w1]; intros E.
  - right. eauto.
  - left. injection E as <- <-. eauto.
Qed.

Lemma bind_steps {A B} own (m : M A) (f : A -> M B) :
  steps own m -> (forall a, steps own (f a)) -> steps own (bind m f).
Proof.
  intros Hm Hf w r w' Hal E.
  apply bind_inv in E as [(x & Em & ->) | (a & w1 & Em & Ef)].
  - destruct (Hm _ _ _ Hal Em) as (tr & Htr & _). exists tr. split; [done | discriminate].
  - destruct (Hm _ _ _ Hal Em) as (t1 & Ht1 & Hev1).
    destruct (Hev1 a eq_refl) as (d1 & Hev1').
    pose proof (evolves_allocated _ _ _ _ _ Hal Hev1') as Hal1.
    destruct (Hf a _ _ _ Hal1 Ef) as (t2 & Ht2 & Hev2).
    exists (t1 ++ t2). split; [by rewrite Ht2, Ht1, app_assoc |].
    intros b Hb. destruct (Hev2 b Hb) as (d2 & Hev2').
    exists (d1 ++ d2). by eapply evolves_trans.
Qed.

Lemma ret_steps {A} own (a : A) : steps own (ret a).
Proof.
  intros w r w' _ E. injection E as <- <-. exists []. rewrite app_nil_r.
  split; [done |]. intros _ _. exists []. apply evolves_refl.
Qed.

Lemma throw_steps {A} own x : steps own (throw (A := A) x).
Proof.
  intros w r w' _ E. injection E as <- <-. exists []. rewrite app_nil_r.
  split; [done | discriminate].
Qed.

Lemma observe_steps own ev : silent ev -> steps own (observe ev).
Proof.
  intros Hs w r w' _ E. injection E as <- <-. exists [ev].
  split; [done |]. intros _ _. exists []. by apply evolves_silent.
Qed.

Lemma query_steps own d sql scan args : steps own (query d sql scan args).
Proof.
  intros w r w' _ E. unfold query in E.
  destruct (respond d (trace w) sql args) as [raws err].
  injection E as <- <-. exists [EvQuery sql args].
  split; [done |]. intros _ _. exists []. by apply evolves_silent.
Qed.

Lemma invokeSink_steps own fn r fr : steps own (invokeSink fn r fr).
Proof. destruct fn; [apply ret_steps | apply throw_steps]. Qed.

Lemma appendLog_steps l line : steps (Some l) (appendLog l line).
Proof.
  intros w r w' _ E. unfold appendLog in E.
  destruct (heap w !! l) as [buf |] eqn:Hbuf; injection E as <- <-.
  - exists [EvLog l line]. split; [done |]. intros _ _. exists [line].
    split; [apply accounts_log |]. cbn. split; [by rewrite length_alter |]. split.
    + intros l' Hl' Hown. rewrite list_lookup_alter_ne; [done | congruence].
    + intros l' buf' [= <-] Hbuf'. rewrite list_lookup_alter, Hbuf'. cbn.
      by rewrite decide_True.
  - exists []. rewrite app_nil_r. split; [done | discriminate].
Qed.

End Steps.

Section LogsBody.

Context `{Host}.

Variable callRec : engineCall.
Variable executeRec : engineExecute.

Hypothesis callRec_spec : call_spec callRec.
Hypothesis executeRec_spec : execute_spec executeRec.

Lemma recursiveInterpreter_Call_steps r ctx d namespace action args fn :
  steps (Some (ri_logs r))
        (recursiveInterpreter_Call callRec r ctx d namespace action args fn).
Proof.
  intros w res w' Hal E. unfold recursiveInterpreter_Call in E.
  destruct (Hal _ eq_refl) as [buf Hbuf].
  apply bind_inv in E as [(x & Em & ->) | (u & w0 & Em & E)]; [discriminate |].
  injection Em as _ <-.
  apply bind_inv in E as [(x & Em & ->) | (x & w1 & Em & E)].
  - destruct (callRec_spec _ _ _ _ _ _ _ _ _ _ _ Em) as (t1 & Ht1 & _).
    exists ([EvNestedCall namespace action] ++ t1).
    split; [| discriminate]. rewrite Ht1. cbn. by rewrite <- app_assoc.
  - destruct (callRec_spec _ _ _ _ _ _ _ _ _ _ _ Em) as (t1 & Ht1 & Hev).
    destruct (Hev x eq_refl) as (d1 & (Hacc & Hlen & Hoth & _) & Hlogs').
    assert (Hlogs : forall cr, x.1 = inl cr -> Logs cr = d1)
      by (intros cr Hcr; by destruct (Hlogs' cr Hcr)).
    clear Hlogs'.
    cbn in Ht1, Hlen, Hoth.
    assert (Hbuf1 : heap w1 !! ri_logs r = Some buf).
    { rewrite Hoth; [done | by eapply lookup_lt_Some | done]. }
    destruct x as [[cr | err] rows]; cbn [fst snd] in E.
    + unfold bind, extendLogs, observe, ret in E. rewrite Hbuf1 in E. cbn in E.
      injection E as <- <-. cbn.
      exists ([EvNestedCall namespace action] ++ t1 ++ [EvNestedCallReturned]).
      split; [rewrite Ht1; by rewrite <- !app_assoc |].
      intros _ _. exists d1. rewrite <- (Hlogs cr eq_refl) in *.
      split; [by apply accounts_returned |]. cbn.
      split; [rewrite length_alter; lia |]. split.
      * intros l Hl Hown. rewrite list_lookup_alter_ne by congruence. by apply Hoth.
      * intros l buf' [= <-] Hbuf'. rewrite list_lookup_alter, Hbuf1. cbn.
        rewrite decide_True by done. congruence.
    + unfold bind, observe, ret in E. cbn in E. injection E as <- <-. cbn.
      exists ([EvNestedCall namespace action] ++ t1 ++ [EvNestedCallFailed err]).
      split; [rewrite Ht1; by rewrite <- !app_assoc |].
      intros _ _. exists [].
      split; [by eapply accounts_failed |]. cbn. split; [lia |]. split.
      * intros l Hl Hown. by apply Hoth.
      * intros l buf' [= <-] Hbuf'. rewrite app_nil_r. congruence.
Qed.

Lemma recursiveInterpreter_Execute_steps r ctx d statement params fn :
  steps (Some (ri_logs r))
        (recursiveInterpreter_Execute executeRec r ctx d statement params fn).
Proof.
  intros w res w' Hal E. unfold recursiveInterpreter_Execute in E.
  destruct (Hal _ eq_refl) as [buf Hbuf].
  apply bind_inv in E as [(x & Em & ->) | (u & w0 & Em & E)]; [discriminate |].
  injection Em as _ <-.
  apply bind_inv in E as [(x & Em & ->) | (x & w1 & Em & E)].
  - destruct (executeRec_spec _ _ _ _ _ _ _ _ _ _ Em) as (t1 & Ht1 & _).
    exists ([EvNestedExecute statement] ++ t1).
    split; [| discriminate]. rewrite Ht1. cbn. by rewrite <- app_assoc.
  - destruct (executeRec_spec _ _ _ _ _ _ _ _ _ _ Em) as (t1 & Ht1 & Hev).
    destruct (Hev x eq_refl) as (d1 & Hacc & Hlen & Hoth & _).
    cbn in Ht1, Hlen, Hoth.
    unfold bind, observe, ret in E. cbn in E. injection E as <- <-. cbn.
    exists ([EvNestedExecute statement] ++ t1 ++ [EvNestedExecuteReturned]).
    split; [rewrite Ht1; by rewrite <- !app_assoc |].
    intros _ _. exists [].
    split; [by eapply accounts_execute |]. cbn. split; [lia |]. split.
    + intros l Hl Hown. by apply Hoth.
    + intros l buf' [= <-] Hbuf'. rewrite app_nil_r.
      rewrite Hoth; [done | by eapply lookup_lt_Some | done].
Qed.

Lemma run_steps e fn p : forall fr, steps (Some (logs e)) (run callRec executeRec e fn p fr).
Proof.
  induction p as [err | msg | line k IH | sql scan args k IH | r k IH | k IH | s k IH
                 | namespace action args nfn k IH | statement params nfn k IH];
    intros fr; cbn.
  - apply ret_steps.
  - apply throw_steps.
  - apply bind_steps; [apply appendLog_steps | auto].
  - apply bind_steps; [apply query_steps | auto].
  - apply bind_steps; [apply invokeSink_steps | auto].
  - auto.
  - auto.
  - apply bind_steps; [apply (recursiveInterpreter_Call_steps (app_Engine e)) | auto].
  - apply bind_steps; [apply (recursiveInterpreter_Execute_steps (app_Engine e)) | auto].
Qed.

Lemma newExecCtx_eq i ctx d namespace toplevel w am :
  access d = Some am ->
  newExecCtx i ctx d namespace toplevel w
  = (inl (inl (contextIn i ctx d am w, freshFrame namespace toplevel)),
     {| heap := heap w ++ [[]]; trace := trace w |}).
Proof. intros Ha. unfold newExecCtx. by rewrite Ha. Qed.

Lemma newExecCtx_no_access_mode i ctx d namespace toplevel w :
  access d = None ->
  newExecCtx i ctx d namespace toplevel w = (inl (inr ErrNoAccessModer), w).
Proof. intros Ha. unfold newExecCtx. by rewrite Ha. Qed.

(** A stretch that ran in a freshly allocated buffer, seen from outside. *)
Lemma evolves_fresh w t tr delta w2 :
  evolves (Some (length (heap w))) {| heap := heap w ++ [[]]; trace := t |} tr delta w2 ->
  evolves None w tr delta w2 /\ heap w2 !! length (heap w) = Some delta.
Proof.
  intros (Hacc & Hlen & Hoth & Hown). cbn in *. rewrite length_app in *. cbn in *.
  split.
  - split; [done |]. split; [lia |]. split; [| done].
    intros l Hl _. rewrite Hoth; [| lia | intros [= E]; lia].
    by rewrite lookup_app_l.
  - rewrite (Hown _ [] eq_refl); [done |].
    by rewrite lookup_app_r, Nat.sub_diag.
Qed.

Lemma fresh_allocated w t :
  allocated (Some (length (heap w))) {| heap := heap w ++ [[]]; trace := t |}.
Proof.
  intros l [= <-]. cbn. exists []. by rewrite lookup_app_r, Nat.sub_diag.
Qed.

Lemma evolves_alloc w t :
  evolves None w [] [] {| heap := heap w ++ [[]]; trace := t |}.
Proof.
  split; [apply accounts_nil |]. cbn. rewrite length_app. split; [lia |].
  split; [| done]. intros l Hl _. by rewrite lookup_app_l.
Qed.

Lemma readLogs_steps own p : steps own (readLogs p).
Proof.
  intros w r w' _ E. unfold readLogs in E.
  destruct (heap w !! p); injection E as <- <-; exists []; rewrite app_nil_r;
    (split; [done |]); [| discriminate].
  intros _ _. exists []. apply evolves_refl.
Qed.

Lemma call_after_resolution i ctx d am w exec argVals fn key toplevel r w' :
  (observe (EvInvoke (Name exec) argVals) ;;;
   x <- run callRec executeRec (contextIn i ctx d am w) (orNoop fn)
          (Func exec argVals) (freshFrame key toplevel) ;;
   match x.1 with
   | Some err => ret (inr err, delivered x.2)
   | None => buf <- readLogs (logs (contextIn i ctx d am w)) ;;
             ret (inl {| Logs := buf |}, delivered x.2)
   end) {| heap := heap w ++ [[]]; trace := trace w |} = (r, w') ->
  exists tr : list event,
    trace w' = trace w ++ tr /\
    (forall x, r = inl x ->
       exists delta : list string,
         evolves None w tr delta w' /\
         (forall res, x.1 = inl res ->
            Logs res = delta /\ heap w' !! length (heap w) = Some delta)).
Proof.
  intros E. set (e := contextIn i ctx d am w) in E.
  apply bind_inv in E as [(x & Em & ->) | (u & w1 & Em & E)]; [discriminate |].
  injection Em as _ <-.
  assert (Hal1 : allocated (Some (logs e))
                   {| heap := heap w ++ [[]];
                      trace := trace w ++ [EvInvoke (Name exec) argVals] |})
    by apply fresh_allocated.
  apply bind_inv in E as [(x & Em & ->) | (x & w2 & Em & E)].
  - destruct (run_steps _ _ _ _ _ _ _ Hal1 Em) as (tr & Htr & _).
    exists ([EvInvoke (Name exec) argVals] ++ tr).
    split; [| discriminate]. rewrite Htr. cbn. by rewrite <- app_assoc.
  - destruct (run_steps _ _ _ _ _ _ _ Hal1 Em) as (tr & Htr & Hev).
    destruct (Hev x eq_refl) as (delta & Hev').
    apply evolves_fresh in Hev' as [Hev' Hbuf].
    assert (Hacc : evolves None w ([EvInvoke (Name exec) argVals] ++ tr) delta w2).
    { destruct Hev' as (Hacc & Hrest). split; [| done].
      change delta with ([] ++ delta). apply accounts_app; [| done].
      by apply accounts_silent. }
    assert (Htr' : trace w2 = trace w ++ [EvInvoke (Name exec) argVals] ++ tr).
    { rewrite Htr. cbn. by rewrite <- app_assoc. }
    destruct x as [[err |] fr']; cbn [fst snd] in E.
    + injection E as <- <-. eexists. split; [exact Htr' |].
      intros x [= <-]. exists delta. split; [done | discriminate].
    + unfold bind, readLogs, ret in E. cbn [logs e contextIn] in E.
      rewrite Hbuf in E. injection E as <- <-.
      eexists. split; [exact Htr' |].
      intros x [= <-]. exists delta. split; [done |]. by intros res [= <-].
Qed.

Lemma call_body_spec : call_spec (call_body callRec executeRec).
Proof.
  intros i ctx d namespace action args fn toplevel w r w' E.
  unfold call_body in E. fold (namespaceKey namespace) in E. fold (orNoop fn) in E.
  assert (Hfail : forall err (r0 : result CallResult * list Row + abort) w0',
             ret (inr err, []) {| heap := heap w ++ [[]]; trace := trace w |} = (r0, w0') ->
             exists tr : list event,
               trace w0' = trace w ++ tr /\
               (forall x, r0 = inl x ->
                  exists delta : list string,
                    evolves None w tr delta w0' /\
                    (forall res, x.1 = inl res ->
                       Logs res = delta /\ heap w0' !! length (heap w) = Some delta))).
  { intros err r0 w0' E0. injection E0 as <- <-. exists []. cbn.
    rewrite app_nil_r. split; [done |]. intros x [= <-]. exists [].
    split; [apply evolves_alloc | discriminate]. }
  destruct (access d) as [am |] eqn:Ha.
  - apply bind_inv in E as [(x & Em & ->) | (c & w0 & Em & E)];
      rewrite (newExecCtx_eq _ _ _ _ _ _ am Ha) in Em; [discriminate |].
    injection Em as <- <-.
    destruct (namespaces i !! namespaceKey namespace) as [ns |]; [| by eapply Hfail].
    destruct (availableFunctions ns !! ToLower action) as [exec |]; [| by eapply Hfail].
    destruct (Type_ exec); [by eapply Hfail | | | by eapply Hfail];
      (destruct (convertArgs args) as [argVals | err]; [| by eapply Hfail]);
      by eapply call_after_resolution.
  - apply bind_inv in E as [(x & Em & ->) | (c & w0 & Em & E)];
      rewrite (newExecCtx_no_access_mode _ _ _ _ _ _ Ha) in Em; [discriminate |].
    injection Em as <- <-. injection E as <- <-. exists []. rewrite app_nil_r.
    split; [done |]. intros x [= <-]. exists [].
    split; [apply evolves_refl | discriminate].
Qed.

Lemma bindParams_steps own ps : forall sc, steps own (bindParams ps sc).
Proof.
  induction ps as [| p ps IH]; intros sc; cbn.
  - apply ret_steps.
  - destruct (NewValue p.2); [| apply ret_steps].
    destruct (isValidVarName _ _); [apply ret_steps |].
    destruct (setVariable _ _ _); [| apply ret_steps].
    apply bind_steps; [by apply observe_steps | auto].
Qed.

Lemma runStatements_steps e fn ast : forall index fr,
  steps (Some (logs e)) (runStatements callRec executeRec e fn index ast fr).
Proof.
  induction ast as [| stmt ast IH]; intros index fr; cbn.
  - apply ret_steps.
  - apply bind_steps; [by apply observe_steps |]. intros _.
    apply bind_steps; [apply run_steps |].
    intros [[err |] fr']; cbn [fst snd]; [apply ret_steps | apply IH].
Qed.

Lemma execute_body_spec : execute_spec (execute_body callRec executeRec).
Proof.
  intros i ctx d statement params fn toplevel w r w' E.
  unfold execute_body in E. fold (orNoop fn) in E.
  assert (Hret : forall (x : option error * list Row) w0,
             ret x w0 = (r, w') -> w0 = w ->
             exists tr : list event,
               trace w' = trace w ++ tr /\
               (forall x, r = inl x ->
                  exists delta : list string, evolves None w tr delta w')).
  { intros x w0 E0 ->. injection E0 as <- <-. exists []. rewrite app_nil_r.
    split; [done |]. intros _ _. exists []. apply evolves_refl. }
  destruct (Parse statement) as [ast | err]; [| by eapply Hret].
  destruct (Nat.eqb (length ast) 0); [by eapply Hret |].
  destruct (access d) as [am |] eqn:Ha.
  - apply bind_inv in E as [(x & Em & ->) | (c & w0 & Em & E)];
      rewrite (newExecCtx_eq _ _ _ _ _ _ am Ha) in Em; [discriminate |].
    injection Em as <- <-.
    set (e := contextIn i ctx d am w) in E.
    assert (Hst : steps (Some (logs e))
                    (b <- bindParams (OrderMap params)
                            (fscope (freshFrame DefaultNamespace toplevel)) ;;
                     match b.1 with
                     | Some err => ret (Some err, [])
                     | None =>
                         x <- runStatements callRec executeRec e (orNoop fn) 0 ast
                                {| fscope := b.2;
                                   delivered := delivered (freshFrame DefaultNamespace toplevel) |} ;;
                         ret (x.1, delivered x.2)
                     end)).
    { apply bind_steps; [apply bindParams_steps |].
      intros [[err |] sc]; cbn [fst snd]; [apply ret_steps |].
      apply bind_steps; [apply runStatements_steps | intros; apply ret_steps]. }
    destruct (Hst _ _ _ (fresh_allocated w (trace w)) E) as (tr & Htr & Hev).
    exists tr. split; [done |]. intros x Hx.
    destruct (Hev x Hx) as (delta & Hev'). exists delta.
    by apply evolves_fresh in Hev' as [Hev' _].
  - apply bind_inv in E as [(x & Em & ->) | (c & w0 & Em & E)];
      rewrite (newExecCtx_no_access_mode _ _ _ _ _ _ Ha) in Em; [discriminate |].
    injection Em as <- <-. by eapply Hret.
Qed.

End LogsBody.

Section LogsTop.

Context `{Host}.

Lemma nested_specs depth :
  call_spec (nested_call depth) /\ execute_spec (nested_execute depth).
Proof.
  induction depth as [| depth [IHc IHe]]; cbn.
  - split;
      [intros i ctx d namespace action args fn toplevel w r w' E
      | intros i ctx d statement params fn toplevel w r w' E];
      injection E as <- <-;
      exists []; rewrite app_nil_r; (split; [done | discriminate]).
  - split; [by apply call_body_spec | by apply execute_body_spec].
Qed.

Lemma call_meets_spec depth : call_spec (call depth).
Proof. destruct (nested_specs depth). by apply call_body_spec. Qed.

Lemma execute_meets_spec depth : execute_spec (execute depth).
Proof. destruct (nested_specs depth). by apply execute_body_spec. Qed.

(** C8, as amended. The [Logs] of a top-level call that returns are the
    content of the log buffer of its execution context, and that content is:
    the lines the call wrote itself together with the lines of every call
    made through the recursive handle that returned without error (and, in
    turn, of the calls nested in those), in the order they were written.
    The lines of a nested call that failed, and the lines written under a
    nested [Execute], are not carried over; when no nested call failed and
    no nested [Execute] was made, [Logs] is every line written during the
    invocation. *)
Theorem call_returns_carried_logs depth i ctx d namespace action args resultFn
    toplevel w res rows w' :
  call depth i ctx d namespace action args resultFn toplevel w
    = (inl (inl res, rows), w') ->
  exists tr : list event,
    trace w' = trace w ++ tr
    /\ heap w' !! length (heap w) = Some (Logs res)
    /\ Logs res = carried tr [] []
    /\ (all_nested_calls_returned tr -> Logs res = written tr).
Proof.
  intros E. destruct (call_meets_spec depth _ _ _ _ _ _ _ _ _ _ _ E) as (tr & Htr & Hev).
  destruct (Hev _ eq_refl) as (delta & ((Hcar & Hwr) & _) & Hlogs).
  destruct (Hlogs res eq_refl) as [-> Hbuf].
  exists tr. split; [done |]. split; [done |]. split; [| done].
  symmetry. by apply accounts_carried.
Qed.

End LogsTop.

(** C8, as worded, fails: [relay] calls [shout] through its engine handle;
    [shout] writes a line and fails; [relay] carries on and returns. The
    line was written by a nested call made through the recursive handle, and
    the [Logs] of the top-level call do not hold it. *)
Lemma failed_nested_call_lines_are_dropped :
  let out := call (H := Demo.host) 1 Demo.interp Demo.ctx Demo.rw "main" "relay"
               [] None true Demo.w0 in
  out.1 = inl (inl {| Logs := [] |}, [])
  /\ written (trace out.2) = ["lost"]
  /\ EvNestedCall "main" "shout" ∈ trace out.2.
Proof. vm_compute. repeat split. apply list_elem_of_In. cbn. tauto. Qed.

Lemma call_returns_carried_logs_witness :
  let out := call (H := Demo.host) 1 Demo.interp Demo.ctx Demo.rw "main" "wrap"
               [] None true Demo.w0 in
  exists tr : list event,
    trace out.2 = trace Demo.w0 ++ tr
    /\ heap out.2 !! length (heap Demo.w0) = Some ["before"; "hi"; "after"]
    /\ ["before"; "hi"; "after"] = carried tr [] []
    /\ (all_nested_calls_returned tr -> ["before"; "hi"; "after"] = written tr).
Proof.
  intros out.
  apply (call_returns_carried_logs (H := Demo.host) 1 Demo.interp Demo.ctx Demo.rw
           "main" "wrap" [] None true Demo.w0
           {| Logs := ["before"; "hi"; "after"] |} [] out.2).
  vm_compute. reflexivity.
Defined.

(** ** Parameter binding in [execute] *)

Section KeyOrder.

Lemma ascii_compare_Lt_trans a b c :
  Ascii.compare a b = Lt -> Ascii.compare b c = Lt -> Ascii.compare a c = Lt.
Proof.
  unfold Ascii.compare. rewrite !N.compare_lt_iff. lia.
Qed.

Lemma string_leb_trans s1 : forall s2 s3,
  String.leb s1 s2 = true -> String.leb s2 s3 = true -> String.leb s1 s3 = true.
Proof.
  unfold String.leb.
  induction s1 as [| a s1 IH]; intros [| b s2] [| c s3]; cbn; try done.
  destruct (Ascii.compare a b) eqn:Hab; destruct (Ascii.compare b c) eqn:Hbc;
    try done.
  - apply Ascii.compare_eq_iff in Hab as ->. rewrite Hbc. apply IH.
  - apply Ascii.compare_eq_iff in Hab as ->. by rewrite Hbc.
  - apply Ascii.compare_eq_iff in Hbc as <-. by rewrite Hab.
  - by rewrite (ascii_compare_Lt_trans a b c).
Qed.

#[local] Instance key_le_total : Total key_le.
Proof. intros p q. unfold key_le. apply String.leb_total. Qed.

#[local] Instance key_le_trans : Transitive key_le.
Proof. intros p q r. unfold key_le. apply string_leb_trans. Qed.

Lemma OrderMap_Sorted params : Sorted key_le (OrderMap params).
Proof. apply Sorted_merge_sort. apply _. Qed.

Lemma OrderMap_Permutation params : OrderMap params ≡ₚ map_to_list params.
Proof. apply merge_sort_Permutation. Qed.

(** Whatever order the map hands its entries out in, sorting gives the same
    list. *)
Lemma OrderMap_iteration_order params l :
  l ≡ₚ map_to_list params -> merge_sort key_le l = OrderMap params.
Proof.
  intros Hl. unfold OrderMap.
  apply (Sorted_unique_strong key_le).
  - intros [k1 v1] [k2 v2] H1 H2 Hle Hge.
    rewrite merge_sort_Permutation, Hl in H1.
    rewrite merge_sort_Permutation in H2.
    apply elem_of_map_to_list in H1, H2.
    assert (k1 = k2) as -> by (by apply String.leb_antisym).
    congruence.
  - apply Sorted_merge_sort. apply _.
  - apply Sorted_merge_sort. apply _.
  - by rewrite !merge_sort_Permutation.
Qed.

End KeyOrder.

Section Binding.

Context `{Host}.

Lemma bindParams_spec ps : forall sc w,
  exists bound rest err sc',
    ps = bound ++ rest
    /\ Forall goodParam bound
    /\ bindParams ps sc w
       = (inl (err, sc'),
          {| heap := heap w; trace := trace w ++ flat_map bindingEvent bound |})
    /\ (err = None -> rest = []).
Proof.
  induction ps as [| p ps IH]; intros sc w.
  - exists [], [], None, sc. cbn. rewrite app_nil_r. by destruct w.
  - assert (Hstop : forall err : error,
               ret (Some err, sc) w
               = (inl (Some err, sc),
                  {| heap := heap w; trace := trace w ++ flat_map bindingEvent [] |})).
    { intros err. cbn. rewrite app_nil_r. by destruct w. }
    cbn [bindParams]. fold (paramName p.1).
    destruct (NewValue p.2) as [val | err] eqn:Hval;
      [| exists [], (p :: ps), (Some err), sc; by rewrite Hstop].
    destruct (isValidVarName MAX_IDENT_NAME_LENGTH (paramName p.1)) as [err |] eqn:Hname;
      [exists [], (p :: ps), (Some err), sc; by rewrite Hstop |].
    destruct (setVariable sc (paramName p.1) val) as [sc1 | err];
      [| exists [], (p :: ps), (Some err), sc; by rewrite Hstop].
    destruct (IH sc1 {| heap := heap w;
                        trace := trace w ++ [EvSetVariable (paramName p.1) val] |})
      as (bound & rest & err & sc' & -> & Hgood & Hrun & Hnone).
    exists (p :: bound), rest, err, sc'. split; [done |]. split.
    { constructor; [| done]. split; [eauto | done]. }
    split; [| done].
    unfold bind, observe. rewrite Hrun. cbn. unfold bindingEvent at 2.
    rewrite Hval. cbn. by rewrite <- app_assoc.
Qed.

Lemma bindingEvent_no_statement bound n :
  EvStatement n ∉ flat_map bindingEvent bound.
Proof.
  intros Hin. apply list_elem_of_In, in_flat_map in Hin as (p & _ & Hin).
  unfold bindingEvent in Hin. destruct (NewValue p.2); cbn in Hin; [| done].
  by destruct Hin as [[=] | []].
Qed.

(** How [execute] ends: either it fails before any statement is started,
    having bound an initial part of the sorted parameters, or it has bound
    all of them, in sorted order, and then starts the first statement. *)
Lemma execute_cases depth i ctx d statement params fn toplevel w :
  let out := execute depth i ctx d statement params fn toplevel w in
  (exists err bound rest,
      out.1 = inl (Some err, [])
      /\ OrderMap params = bound ++ rest
      /\ Forall goodParam bound
      /\ trace out.2 = trace w ++ flat_map bindingEvent bound)
  \/ (Forall goodParam (OrderMap params)
      /\ exists tail,
           trace out.2
           = trace w ++ flat_map bindingEvent (OrderMap params) ++ EvStatement 0 :: tail).
Proof.
  intros out. subst out.
  destruct (execute depth i ctx d statement params fn toplevel w) as [r w'] eqn:E.
  cbn [fst snd]. unfold execute, execute_body in E. fold (orNoop fn) in E.
  assert (Hearly : forall (err : error) w0,
             trace w0 = trace w ->
             ret (Some err, []) w0 = (r, w') ->
             exists err' bound rest,
               r = inl (Some err', [])
               /\ OrderMap params = bound ++ rest
               /\ Forall goodParam bound
               /\ trace w' = trace w ++ flat_map bindingEvent bound).
  { intros err w0 Hw0 E0. injection E0 as <- <-.
    exists err, [], (OrderMap params). cbn. by rewrite app_nil_r. }
  destruct (Parse statement) as [ast | err]; [| left; by eapply Hearly].
  destruct ast as [| stmt ast]; cbn [length Nat.eqb] in E; [left; by eapply Hearly |].
  destruct (access d) as [am |] eqn:Ha.
  - apply bind_inv in E as [(x & Em & ->) | (c & w0 & Em & E)];
      rewrite (newExecCtx_eq _ _ _ _ _ _ am Ha) in Em; [discriminate |].
    injection Em as <- <-.
    set (e := contextIn i ctx d am w) in E.
    destruct (bindParams_spec (OrderMap params)
                (fscope (freshFrame DefaultNamespace toplevel))
                {| heap := heap w ++ [[]]; trace := trace w |})
      as (bound & rest & err & sc' & Hord & Hgood & Hrun & Hnone).
    apply bind_inv in E as [(x & Em & ->) | (b & w1 & Em & E)];
      rewrite Hrun in Em; [discriminate |].
    injection Em as <- <-. cbn [fst snd] in E.
    destruct err as [err |].
    + left. injection E as <- <-. exists err, bound, rest. done.
    + right. rewrite (Hnone eq_refl), app_nil_r in Hord. subst bound.
      split; [done |].
      destruct (nested_specs depth) as [Hc He].
      assert (Hst : steps (Some (logs e))
                      (runStatements (nested_call depth) (nested_execute depth) e
                         (orNoop fn) 0 (stmt :: ast)
                         {| fscope := sc';
                            delivered := delivered (freshFrame DefaultNamespace toplevel) |}))
        by (by apply runStatements_steps).
      assert (Hgrow : forall r1 w2,
                 runStatements (nested_call depth) (nested_execute depth) e
                   (orNoop fn) 0 (stmt :: ast)
                   {| fscope := sc';
                      delivered := delivered (freshFrame DefaultNamespace toplevel) |}
                   {| heap := heap w ++ [[]];
                      trace := trace w ++ flat_map bindingEvent (OrderMap params) |}
                 = (r1, w2) ->
                 exists tail,
                   trace w2 = trace w ++ flat_map bindingEvent (OrderMap params)
                              ++ EvStatement 0 :: tail).
      { intros r1 w2 E1. cbn [runStatements] in E1.
        apply bind_inv in E1 as [(x & Em & ->) | (u & w1 & Em & E1)]; [discriminate |].
        injection Em as _ <-.
        assert (Hst1 : steps (Some (logs e))
                  (x <- run (nested_call depth) (nested_execute depth) e (orNoop fn)
                          (plan stmt)
                          {| fscope := sc';
                             delivered := delivered (freshFrame DefaultNamespace toplevel) |} ;;
                   match x.1 with
                   | Some err => ret (Some err, x.2)
                   | None => runStatements (nested_call depth) (nested_execute depth) e
                               (orNoop fn) 1 ast x.2
                   end)).
        { apply bind_steps; [by apply run_steps |].
          intros [[err |] fr']; cbn [fst snd]; [apply ret_steps |].
          by apply runStatements_steps. }
        destruct (Hst1 _ _ _ (fresh_allocated w _) E1) as (tr & Htr & _).
        exists tr. rewrite Htr. cbn. by rewrite <- !app_assoc. }
      apply bind_inv in E as [(x & Em & ->) | (x & w2 & Em & E)].
      * by eapply Hgrow.
      * injection E as <- <-. by eapply Hgrow.
  - apply bind_inv in E as [(x & Em & ->) | (c & w0 & Em & E)];
      rewrite (newExecCtx_no_access_mode _ _ _ _ _ _ Ha) in Em; [discriminate |].
    injection Em as <- <-. left. by eapply Hearly.
Qed.

(** C5: [execute] binds the parameters in the order of their sorted keys,
    whatever order the host map hands them out in; every name bound is the
    lower-cased key with the sigil in front and has passed the identifier
    rule, every value bound is the conversion of the host value; all of this
    happens before the first statement is started. When some key is
    malformed or some host value does not convert, the call fails, no
    statement is started, and the result function has received no row. *)
Theorem execute_binds_sorted_parameters depth i ctx d statement params fn toplevel w :
  let out := execute depth i ctx d statement params fn toplevel w in
  (Sorted key_le (OrderMap params)
   /\ OrderMap params ≡ₚ map_to_list params
   /\ (forall l, l ≡ₚ map_to_list params -> merge_sort key_le l = OrderMap params))
  /\ ((exists err bound rest,
          out.1 = inl (Some err, [])
          /\ OrderMap params = bound ++ rest
          /\ Forall goodParam bound
          /\ trace out.2 = trace w ++ flat_map bindingEvent bound)
      \/ (Forall goodParam (OrderMap params)
          /\ exists tail,
               trace out.2
               = trace w ++ flat_map bindingEvent (OrderMap params)
                 ++ EvStatement 0 :: tail))
  /\ (forall k v,
         params !! k = Some v -> ~ goodParam (k, v) ->
         exists err binds,
           out.1 = inl (Some err, [])
           /\ trace out.2 = trace w ++ binds
           /\ (forall n, EvStatement n ∉ binds)).
Proof.
  intros out. split; [| split].
  - split; [apply OrderMap_Sorted |]. split; [apply OrderMap_Permutation |].
    apply OrderMap_iteration_order.
  - apply execute_cases.
  - intros k v Hkv Hbad.
    destruct (execute_cases depth i ctx d statement params fn toplevel w)
      as [(err & bound & rest & Hres & _ & _ & Htr) | [Hall _]].
    + exists err, (flat_map bindingEvent bound). split; [done |]. split; [done |].
      intros n. apply bindingEvent_no_statement.
    + exfalso. apply Hbad. rewrite Forall_forall in Hall. apply Hall.
      rewrite OrderMap_Permutation. by apply elem_of_map_to_list.
Qed.

End Binding.

(** ** Extension namespaces at construction *)

Section Merge.

Context `{Store}.

Lemma mergeExisting_lookup existing ext name :
  availableFunctions (mergeExisting existing ext) !! name
  = match availableFunctions existing !! name with
    | Some exec => Some exec
    | None => availableFunctions ext !! name
    end.
Proof.
  unfold mergeExisting. cbn [availableFunctions].
  apply (map_fold_weak_ind
           (fun (r : gmap string executable) (m : gmap string executable) =>
              r !! name = match m !! name with
                          | Some exec => Some exec
                          | None => availableFunctions ext !! name
                          end)).
  - by rewrite lookup_empty.
  - intros k v m r Hk IH. destruct (decide (k = name)) as [-> | Hne].
    + by rewrite !lookup_insert_eq.
    + by rewrite !lookup_insert_ne.
Qed.


(** One turn of the extension loop on an alias that is already taken. *)
Lemma loadExtension_merges d interp instances ext existing interp' instances' :
  namespaces interp !! Alias ext = Some existing ->
  loadExtension d (interp, instances) ext = inl (interp', instances') ->
  exists sysExt ns inst,
    RegisteredPrecompiles !! ExtName ext = Some sysExt
    /\ initializeExtension d sysExt (Alias ext) (Metadata ext) = inl (ns, inst)
    /\ namespaces interp' = <[Alias ext := mergeExisting existing ns]> (namespaces interp)
    /\ instances' = instances ++ [inst].
Proof.
  intros Hex Hload. unfold loadExtension in Hload.
  destruct (RegisteredPrecompiles !! ExtName ext) as [sysExt |] eqn:Hreg; [| discriminate].
  destruct (initializeExtension d sysExt (Alias ext) (Metadata ext))
    as [[ns inst] | err] eqn:Hinit; [| discriminate].
  rewrite Hex in Hload. injection Hload as <- <-. by exists sysExt, ns, inst.
Qed.

Lemma mergeExisting_keeps existing ns :
  (forall name exec,
      availableFunctions existing !! name = Some exec ->
      availableFunctions (mergeExisting existing ns) !! name = Some exec)
  /\ tables (mergeExisting existing ns) = tables existing.
Proof.
  split; [| done]. intros name exec Hname. by rewrite mergeExisting_lookup, Hname.
Qed.

(** C7: when the extension loop of [NewInterpreter] reaches a persisted
    extension whose alias already names a loaded namespace, the namespace it
    stores under the alias maps every name of the loaded executable set to
    the loaded entry, and its tables are exactly the loaded tables. *)
Theorem loadExtension_existing_wins d interp instances ext existing interp' instances' :
  namespaces interp !! Alias ext = Some existing ->
  loadExtension d (interp, instances) ext = inl (interp', instances') ->
  exists merged,
    namespaces interp' !! Alias ext = Some merged
    /\ (forall name exec,
           availableFunctions existing !! name = Some exec ->
           availableFunctions merged !! name = Some exec)
    /\ tables merged = tables existing.
Proof.
  intros Hex Hload.
  destruct (loadExtension_merges _ _ _ _ _ _ _ Hex Hload)
    as (sysExt & ns & inst & _ & _ & -> & _).
  exists (mergeExisting existing ns). split; [by rewrite lookup_insert_eq |].
  apply mergeExisting_keeps.
Qed.

(** An alias that the remaining extensions do not use keeps its namespace. *)
Lemma loadExtensions_other d exts : forall st st' alias,
  loadExtensions d st exts = inl st' ->
  alias ∉ map Alias exts ->
  namespaces st'.1 !! alias = namespaces st.1 !! alias.
Proof.
  induction exts as [| ext exts IH]; intros st st' alias Hload Hnot; cbn in Hload.
  - by injection Hload as <-.
  - destruct (loadExtension d st ext) as [st1 | err] eqn:Hstep; [| discriminate].
    cbn in Hnot. apply not_elem_of_cons in Hnot as [Hne Hnot].
    rewrite (IH _ _ _ Hload Hnot).
    destruct st as [interp instances]. unfold loadExtension in Hstep.
    destruct (RegisteredPrecompiles !! ExtName ext) as [sysExt |]; [| discriminate].
    destruct (initializeExtension d sysExt (Alias ext) (Metadata ext))
      as [[ns inst] | err]; [| discriminate].
    injection Hstep as <-. cbn. by rewrite lookup_insert_ne.
Qed.

(** The same for the whole extension loop, when every alias is used once. *)
Lemma loadExtensions_existing_wins d exts : forall st st' ext existing,
  loadExtensions d st exts = inl st' ->
  NoDup (map Alias exts) ->
  ext ∈ exts ->
  namespaces st.1 !! Alias ext = Some existing ->
  exists merged,
    namespaces st'.1 !! Alias ext = Some merged
    /\ (forall name exec,
           availableFunctions existing !! name = Some exec ->
           availableFunctions merged !! name = Some exec)
    /\ tables merged = tables existing.
Proof.
  induction exts as [| ext0 exts IH]; intros st st' ext existing Hload Hnd Hin Hex.
  - by apply elem_of_nil in Hin.
  - cbn in Hload, Hnd. apply NoDup_cons in Hnd as [Hfresh Hnd].
    destruct (loadExtension d st ext0) as [st1 | err] eqn:Hstep; [| discriminate].
    destruct st as [interp instances], st1 as [interp1 instances1].
    apply elem_of_cons in Hin as [-> | Hin].
    + destruct (loadExtension_merges _ _ _ _ _ _ _ Hex Hstep)
        as (sysExt & ns & inst & _ & _ & Hnss & _).
      exists (mergeExisting existing ns). split; [| apply mergeExisting_keeps].
      rewrite (loadExtensions_other _ _ _ _ _ Hload Hfresh). cbn.
      by rewrite Hnss, lookup_insert_eq.
    + assert (Hne : Alias ext0 <> Alias ext).
      { intros Heq. apply Hfresh. rewrite Heq. apply list_elem_of_fmap. eauto. }
      eapply IH; [exact Hload | done | done |].
      unfold loadExtension in Hstep.
      destruct (RegisteredPrecompiles !! ExtName ext0) as [sysExt |]; [| discriminate].
      destruct (initializeExtension d sysExt (Alias ext0) (Metadata ext0))
        as [[ns inst] | err]; [| discriminate].
      injection Hstep as <- <-. cbn in *. by rewrite lookup_insert_ne.
Qed.

End Merge.

Lemma loadExtension_existing_wins_witness :
  exists merged,
    namespaces
      {| namespaces := <["tokens" := mergeExisting Demo.tokensNamespace Demo.extensionNamespace]>
                         (namespaces Demo.loaded);
         bi_accessController := registerNamespace "tokens" (bi_accessController Demo.loaded) |}
      !! "tokens" = Some merged
    /\ (forall name exec,
           availableFunctions Demo.tokensNamespace !! name = Some exec ->
           availableFunctions merged !! name = Some exec)
    /\ tables merged = tables Demo.tokensNamespace.
Proof.
  apply (loadExtension_existing_wins (H0 := Demo.store) Demo.rw Demo.loaded []
           Demo.tokensExtension Demo.tokensNamespace _ ["tokens"]);
    reflexivity.
Defined.

(** The whole construction on the sample catalog: under the alias [tokens]
    the user's [ping] stands (an action, not the extension's method), the
    extension's [balance] is added, and the tables are the persisted ones. *)
Example NewInterpreter_tokens :
  match NewInterpreter (H0 := Demo.store) Demo.rw with
  | inl t =>
      match namespaces (ts_i t) !! "tokens" with
      | Some ns =>
          Type_ <$> availableFunctions ns !! "ping" = Some executableTypeAction
          /\ Type_ <$> availableFunctions ns !! "balance" = Some executableTypePrecompile
          /\ (map_to_list (tables ns)).*1 = ["holders"]
      | None => False
      end
  | inr _ => False
  end.
Proof. vm_compute. done. Qed.

(** ** The locking wrapper *)

Section Locking.

Context `{Host}.

Ltac split_ifs :=
  repeat match goal with
         | |- context [if ?b then _ else _] => destruct b
         | H : context [if ?b then _ else _] |- _ => destruct b
         end.

Lemma holders_insert m cs : forall n c c',
  cs !! n = Some c ->
  holders m (<[n := c']> cs) + (if is_inside_mode m c then 1 else 0)
  = holders m cs + (if is_inside_mode m c' then 1 else 0).
Proof.
  induction cs as [| c0 cs IH]; intros [| n] c c' Hn; cbn in *; try done.
  - injection Hn as ->. split_ifs; lia.
  - specialize (IH n c c' Hn). unfold insert in *. split_ifs; lia.
Qed.

Lemma holders_Entering m rs : holders m (map Entering rs) = 0.
Proof. induction rs as [| r rs IH]; cbn; [done | by rewrite IH]. Qed.

Lemma holders_pos m cs n c :
  cs !! n = Some c -> is_inside_mode m c = true -> 1 <= holders m cs.
Proof.
  revert n. induction cs as [| c0 cs IH]; intros [| n] Hn Hc; cbn in *; try done.
  - injection Hn as ->. rewrite Hc. lia.
  - specialize (IH n Hn Hc). split_ifs; lia.
Qed.

Lemma holders_two m cs n1 n2 c1 c2 :
  n1 <> n2 ->
  cs !! n1 = Some c1 -> is_inside_mode m c1 = true ->
  cs !! n2 = Some c2 -> is_inside_mode m c2 = true ->
  2 <= holders m cs.
Proof.
  intros Hne H1 Hc1 H2 Hc2.
  pose proof (holders_insert m cs n1 c1 (Entering (ReqCall (EngineCtx 0)
                {| access := None; respond := fun _ _ _ => ([], None) |} "" "" [] None)) H1)
    as Hins.
  rewrite Hc1 in Hins. cbn in Hins.
  assert (H2' : <[n1 := Entering (ReqCall (EngineCtx 0)
                   {| access := None; respond := fun _ _ _ => ([], None) |} "" "" [] None)]> cs
                !! n2 = Some c2) by (by rewrite list_lookup_insert_ne).
  pose proof (holders_pos _ _ _ _ H2' Hc2). lia.
Qed.

Lemma lookup_insert_Inside (cs : list caller) n c n' m r :
  <[n := c]> cs !! n' = Some (Inside m r) ->
  (n = n' /\ c = Inside m r) \/ cs !! n' = Some (Inside m r).
Proof.
  intros Hl. destruct (decide (n = n')) as [<- | Hne].
  - destruct (decide (n < length cs)) as [Hlt | Hge].
    + rewrite list_lookup_insert_eq in Hl by done. left. split; congruence.
    + rewrite list_insert_ge in Hl by lia. by right.
  - rewrite list_lookup_insert_ne in Hl by done. by right.
Qed.

Lemma initial_consistent rs w : consistent (initial rs w).
Proof.
  unfold consistent, initial. cbn. rewrite !holders_Entering.
  split; [done |]. split; [done |]. split; [done |].
  intros n m r Hn. apply list_lookup_fmap_Some in Hn as (r' & Ha & _). discriminate.
Qed.

Lemma step_consistent depth i s s' :
  consistent s -> step depth i s s' -> consistent s'.
Proof.
  intros (Hr & Hw & Hwr & Hin) Hstep.
  destruct Hstep as [s n r err Hn Hlock | s n r Hn Hlock Hfree
                    | s n r Hn Hlock Hfree Hnone | s n r Hn | s n r Hn];
    unfold consistent; cbn.
  - pose proof (holders_insert Shared _ n _ (Left (rejection r err)) Hn) as HS.
    pose proof (holders_insert Exclusive _ n _ (Left (rejection r err)) Hn) as HE.
    cbn in HS, HE. repeat split; [lia | lia | done |].
    intros n' m r' Hl. apply lookup_insert_Inside in Hl as [[_ [=]] | Hl]. eauto.
  - pose proof (holders_insert Shared _ n _ (Inside Shared r) Hn) as HS.
    pose proof (holders_insert Exclusive _ n _ (Inside Shared r) Hn) as HE.
    cbn in HS, HE. rewrite Hfree in Hw. repeat split; [lia | lia | done |].
    intros n' m r' Hl. apply lookup_insert_Inside in Hl as [[_ [= <- <-]] | Hl]; eauto.
  - pose proof (holders_insert Shared _ n _ (Inside Exclusive r) Hn) as HS.
    pose proof (holders_insert Exclusive _ n _ (Inside Exclusive r) Hn) as HE.
    cbn in HS, HE. rewrite Hfree in Hw. repeat split; [lia | lia |].
    intros n' m r' Hl. apply lookup_insert_Inside in Hl as [[_ [= <- <-]] | Hl]; eauto.
  - pose proof (holders_insert Shared _ n _
                  (Left (serve depth i r (sys_world s)).1) Hn) as HS.
    pose proof (holders_insert Exclusive _ n _
                  (Left (serve depth i r (sys_world s)).1) Hn) as HE.
    cbn in HS, HE. repeat split; [lia | lia | |].
    + intros Hwt. specialize (Hwr Hwt). lia.
    + intros n' m r' Hl. apply lookup_insert_Inside in Hl as [[_ [=]] | Hl]. eauto.
  - pose proof (holders_insert Shared _ n _
                  (Left (serve depth i r (sys_world s)).1) Hn) as HS.
    pose proof (holders_insert Exclusive _ n _
                  (Left (serve depth i r (sys_world s)).1) Hn) as HE.
    cbn in HS, HE.
    pose proof (holders_pos Exclusive _ _ _ Hn eq_refl) as Hpos.
    destruct (writer (sys_mu s)) eqn:Hwt; [| lia].
    repeat split; [lia | lia | done |].
    intros n' m r' Hl. apply lookup_insert_Inside in Hl as [[_ [=]] | Hl]. eauto.
Qed.

Lemma reachable_consistent depth i rs w s :
  reachable depth i rs w s -> consistent s.
Proof.
  induction 1 as [| s s' _ IH Hstep];
    [apply initial_consistent | by eapply step_consistent].
Qed.

Lemma is_inside_mode_cases c :
  is_inside c = true -> is_inside_mode Shared c = true \/ is_inside_mode Exclusive c = true.
Proof. destruct c as [| [] |]; cbn; auto. Qed.

Lemma exclusive_alone s n1 n2 r c :
  consistent s ->
  sys_callers s !! n1 = Some (Inside Exclusive r) ->
  sys_callers s !! n2 = Some c ->
  is_inside c = true ->
  n1 = n2.
Proof.
  intros (Hr & Hw & Hwr & _) H1 H2 Hc.
  destruct (decide (n1 = n2)) as [| Hne]; [done | exfalso].
  pose proof (holders_pos Exclusive _ _ _ H1 eq_refl) as Hpos.
  destruct (writer (sys_mu s)) eqn:Hwt; [| lia].
  specialize (Hwr eq_refl).
  apply is_inside_mode_cases in Hc as [Hc | Hc].
  - pose proof (holders_pos Shared _ _ _ H2 Hc). lia.
  - pose proof (holders_two Exclusive _ _ _ _ _ Hne H1 eq_refl H2 Hc). lia.
Qed.

(** C9: a top-level [Call] or [Execute] on a handle without an access mode
    returns the error of [lock] and leaves the world as it was, so the engine
    is not reached; a [ReadOnly] handle takes the shared lock and any other
    access mode the exclusive lock; in every state the wrapper can reach, a
    caller is inside the engine only under the lock chosen for its handle,
    and a caller inside under the exclusive lock is the only caller inside;
    two callers with [ReadOnly] handles can be inside at the same time. *)
Theorem wrapper_locks_by_access_mode depth t :
  (forall ctx d namespace action args resultFn w,
      access d = None ->
      ThreadSafeInterpreter_Call depth t ctx d namespace action args resultFn w
      = (inl (inr ErrNoAccessModer, []), w))
  /\ (forall ctx d statement params fn w,
         access d = None ->
         ThreadSafeInterpreter_Execute depth t ctx d statement params fn w
         = (inl (Some ErrNoAccessModer, []), w))
  /\ (forall d, access d = Some ReadOnly -> lock d = inl Shared)
  /\ (forall d am, access d = Some am -> am <> ReadOnly -> lock d = inl Exclusive)
  /\ (forall rs w s,
         reachable depth (ts_i t) rs w s ->
         (forall n m r, sys_callers s !! n = Some (Inside m r) ->
                        lock (request_db r) = inl m)
         /\ (forall n1 n2 r c,
                sys_callers s !! n1 = Some (Inside Exclusive r) ->
                sys_callers s !! n2 = Some c ->
                is_inside c = true ->
                n1 = n2))
  /\ (forall r1 r2 w,
         access (request_db r1) = Some ReadOnly ->
         access (request_db r2) = Some ReadOnly ->
         exists s, reachable depth (ts_i t) [r1; r2] w s /\ overlap s 0 1).
Proof.
  split; [| split; [| split; [| split; [| split]]]].
  - intros ctx d namespace action args resultFn w Ha.
    unfold ThreadSafeInterpreter_Call, lock. by rewrite Ha.
  - intros ctx d statement params fn w Ha.
    unfold ThreadSafeInterpreter_Execute, lock. by rewrite Ha.
  - intros d Ha. unfold lock. by rewrite Ha.
  - intros d am Ha Hne. unfold lock. rewrite Ha. by rewrite bool_decide_eq_false_2.
  - intros rs w s Hreach. pose proof (reachable_consistent _ _ _ _ _ Hreach) as Hcons.
    split.
    + by destruct Hcons as (_ & _ & _ & Hin).
    + intros n1 n2 r c. by apply exclusive_alone.
  - intros r1 r2 w Ha1 Ha2.
    assert (Hl1 : lock (request_db r1) = inl Shared) by (unfold lock; by rewrite Ha1).
    assert (Hl2 : lock (request_db r2) = inl Shared) by (unfold lock; by rewrite Ha2).
    eexists. split.
    + eapply reach_step.
      * eapply reach_step; [apply reach_initial |].
        by apply (step_RLock depth (ts_i t) (initial [r1; r2] w) 0 r1).
      * by apply (step_RLock depth (ts_i t) _ 1 r2).
    + split; [done |]. cbn. exists (Inside Shared r1), (Inside Shared r2). done.
Qed.

End Locking.

(** ** Runs on the sample installation *)

Example isValidVarName_plain : isValidVarName 32 "$x" = None.
Proof. reflexivity. Qed.

Example isValidVarName_no_sigil : isValidVarName 32 "x" = Some ErrVarNameSigil.
Proof. reflexivity. Qed.

Example isValidVarName_space : isValidVarName 32 "$bad name" = Some ErrVarNameCharset.
Proof. reflexivity. Qed.

Example isValidVarName_only_sigil : isValidVarName 32 "$" = Some ErrVarNameCharset.
Proof. reflexivity. Qed.

Example isValidVarName_leading_underscore :
  isValidVarName 32 "$_x" = Some ErrVarNameCharset.
Proof. reflexivity. Qed.

Example isValidVarName_too_long :
  isValidVarName 4 "$abcde" = Some (ErrVarNameTooLong 4 "$abcde").
Proof. reflexivity. Qed.

Example OrderMap_sorts :
  OrderMap (<["b" := AnyInt 2]> (<["a" := AnyInt 1]> (<["C" := AnyInt 3]> ∅)))
  = [("C", AnyInt 3); ("a", AnyInt 1); ("b", AnyInt 2)].
Proof. vm_compute. reflexivity. Qed.

(** A parameter named [X] is bound as [$x] before the two statements run. *)
Example execute_binds_then_runs :
  execute (H := Demo.host) 0 Demo.interp Demo.ctx Demo.rw "SELECT $x; SELECT 1"
    (<["X" := AnyInt 5]> ∅) None true Demo.w0
  = (inl (None,
          [rowToCommonRow {| columns := ["$x"]; Values := [Demo.int 5] |};
           rowToCommonRow {| columns := ["?column?"]; Values := [Demo.int 1] |}]),
     {| heap := [[]];
        trace := [EvSetVariable "$x" (Demo.int 5); EvStatement 0; EvStatement 1] |}).
Proof. vm_compute. reflexivity. Qed.

(** The parameter name [bad name] stops [execute] before any statement. *)
Example execute_bad_name :
  execute (H := Demo.host) 0 Demo.interp Demo.ctx Demo.rw "SELECT 1"
    (<["bad name" := AnyInt 5]> ∅) (Some noopSink) true Demo.w0
  = (inl (Some ErrVarNameCharset, []), {| heap := [[]]; trace := [] |}).
Proof. vm_compute. reflexivity. Qed.

Example execute_unsupported_value :
  execute (H := Demo.host) 0 Demo.interp Demo.ctx Demo.rw "SELECT 1"
    (<["x" := AnyOpaque "chan"]> ∅) (Some noopSink) true Demo.w0
  = (inl (Some (ErrExternal "cannot convert chan"), []), {| heap := [[]]; trace := [] |}).
Proof. vm_compute. reflexivity. Qed.

Example call_greet :
  (call (H := Demo.host) 0 Demo.interp Demo.ctx Demo.ro "" "GREET" [] None true Demo.w0).1
  = inl (inl {| Logs := ["hi"] |}, []).
Proof. vm_compute. reflexivity. Qed.

Example call_unknown_action :
  (call (H := Demo.host) 0 Demo.interp Demo.ctx Demo.ro "main" "nope" [] None true Demo.w0).1
  = inl (inr (ErrUnknownAction "nope" "main"), []).
Proof. vm_compute. reflexivity. Qed.

Example call_without_access_mode :
  call (H := Demo.host) 0 Demo.interp Demo.ctx Demo.plain "main" "abs" [AnyInt 3] None true
    Demo.w0
  = (inl (inr ErrNoAccessModer, []), Demo.w0).
Proof. vm_compute. reflexivity. Qed.

(** [wrap] needs one level of nesting; without it the run does not finish. *)
Example call_wrap_needs_depth :
  (call (H := Demo.host) 0 Demo.interp Demo.ctx Demo.rw "main" "wrap" [] None true Demo.w0).1
  = inr OutOfFuel.
Proof. vm_compute. reflexivity. Qed.

Example call_wrap :
  (call (H := Demo.host) 1 Demo.interp Demo.ctx Demo.rw "main" "wrap" [] None true Demo.w0).1
  = inl (inl {| Logs := ["before"; "hi"; "after"] |}, []).
Proof. vm_compute. reflexivity. Qed.

(** The scalar built-in [abs] run as interpreted code reaches it: one query,
    one row handed to the result function. *)
Example run_abs :
  run (nested_call (H := Demo.host) 0) (nested_execute (H := Demo.host) 0)
      (contextIn Demo.interp Demo.ctx Demo.rw ReadWrite Demo.w0) (Some noopSink)
      (Func (funcDefToExecutable (H := Demo.host) "abs" Demo.absDef) [Demo.int (-3)])
      (freshFrame "main" true) {| heap := [[]]; trace := [] |}
  = (inl (None,
          {| fscope := fscope (freshFrame "main" true);
             delivered := [rowToCommonRow {| columns := ["abs"]; Values := [Demo.int 7] |}] |}),
     {| heap := [[]]; trace := [EvQuery "SELECT abs($1);" [Demo.int (-3)]] |}).
Proof. vm_compute. reflexivity. Qed.

(** * Further properties *)

(** ** Construction: the built-in table and the loaded namespaces *)

Section ConstructionFacts.

Context `{Store}.

Lemma builtInExecutables_lookup name :
  builtInExecutables !! name
  = match Functions !! name with
    | Some (ScalarDef d) => Some (funcDefToExecutable name d)
    | _ => None
    end.
Proof.
  unfold builtInExecutables. revert name.
  apply (map_fold_weak_ind
           (fun (r : gmap string executable) (m : gmap string FunctionDefinition) =>
              forall name,
                r !! name = match m !! name with
                            | Some (ScalarDef d) => Some (funcDefToExecutable name d)
                            | _ => None
                            end)).
  - intros name. by rewrite !lookup_empty.
  - intros k impl m r Hk IH name. destruct (decide (k = name)) as [-> | Hne].
    + rewrite lookup_insert_eq. destruct impl as [d | kind].
      * by rewrite lookup_insert_eq.
      * by rewrite IH, Hk.
    + rewrite (lookup_insert_ne m) by done. destruct impl as [d | kind].
      * by rewrite lookup_insert_ne.
      * apply IH.
Qed.

Lemma copyBuiltinExecutables_eq : copyBuiltinExecutables = builtInExecutables.
Proof.
  unfold copyBuiltinExecutables.
  apply (map_fold_weak_ind
           (fun (r m : gmap string executable) => r = m)); [done |].
  by intros k v m r _ ->.
Qed.

(** X1: the table every namespace starts from holds exactly the scalar
    definitions of [engine.Functions], each under its own name as the
    executable [funcDefToExecutable] makes of it; the other definitions are
    left out; every entry is [Function]-typed and named by its key. *)
Theorem copyBuiltinExecutables_spec name :
  copyBuiltinExecutables !! name
  = match Functions !! name with
    | Some (ScalarDef d) => Some (funcDefToExecutable name d)
    | _ => None
    end
  /\ (forall exec,
         copyBuiltinExecutables !! name = Some exec ->
         Name exec = name /\ Type_ exec = executableTypeFunction).
Proof.
  rewrite copyBuiltinExecutables_eq, builtInExecutables_lookup. split; [done |].
  intros exec Hex. destruct (Functions !! name) as [[d | kind] |]; try discriminate.
  by injection Hex as <-.
Qed.

(** Writing a list into a map by key: the last element of a key stands. *)
Lemma foldl_insert_other {A V} (key : A -> string) (val : A -> V) l :
  forall (m0 : gmap string V) name,
    (forall a, a ∈ l -> key a <> name) ->
    foldl (fun m x => <[key x := val x]> m) m0 l !! name = m0 !! name.
Proof.
  induction l as [| x l IH]; intros m0 name Hno; cbn; [done |].
  rewrite IH.
  - apply lookup_insert_ne. apply Hno. by left.
  - intros a Ha. apply Hno. by right.
Qed.

Lemma foldl_insert_last {A V} (key : A -> string) (val : A -> V) pre a post
    (m0 : gmap string V) :
  (forall b, b ∈ post -> key b <> key a) ->
  foldl (fun m x => <[key x := val x]> m) m0 (pre ++ a :: post) !! key a = Some (val a).
Proof.
  intros Hpost. rewrite foldl_app. cbn.
  rewrite foldl_insert_other by done. apply lookup_insert_eq.
Qed.

Lemma loadNamespace_inv d interp ns interp' :
  loadNamespace d interp ns = inl interp' ->
  exists tbls actions,
    listTablesInNamespace d (nsName ns) = inl tbls
    /\ listActionsInNamespace d (nsName ns) = inl actions
    /\ interp'
       = {| namespaces :=
              <[nsName ns :=
                  {| availableFunctions :=
                       foldl (fun m action =>
                                <[Name (makeActionToExecutable (nsName ns) action)
                                  := makeActionToExecutable (nsName ns) action]> m)
                             copyBuiltinExecutables actions;
                     tables := foldl (fun m tbl => <[TableName tbl := tbl]> m) ∅ tbls;
                     onDeploy := Return None;
                     onUndeploy := Return None;
                     ns_namespaceType := nsType ns;
                     methods := ∅ |}]> (namespaces interp);
            bi_accessController :=
              registerNamespace (nsName ns) (bi_accessController interp) |}.
Proof.
  unfold loadNamespace. intros Hload.
  destruct (listTablesInNamespace d (nsName ns)) as [tbls | err]; [| discriminate].
  destruct (listActionsInNamespace d (nsName ns)) as [actions | err]; [| discriminate].
  injection Hload as <-. by exists tbls, actions.
Qed.

(** X2: a namespace loaded from the persisted catalog maps the name of a
    persisted action to that action (the last one, if several share the
    name), also where a built-in has the name; every other name is mapped as
    in the built-in table; its tables are the persisted tables by name; its
    type is the persisted type and its deploy hooks do nothing; the other
    namespaces of the interpreter are left as they were. *)
Theorem loadNamespace_actions_override d interp ns interp' :
  loadNamespace d interp ns = inl interp' ->
  exists tbls actions n,
    listTablesInNamespace d (nsName ns) = inl tbls
    /\ listActionsInNamespace d (nsName ns) = inl actions
    /\ namespaces interp' !! nsName ns = Some n
    /\ (forall pre a post,
           actions = pre ++ a :: post ->
           (forall b, b ∈ post ->
                      Name (makeActionToExecutable (nsName ns) b)
                      <> Name (makeActionToExecutable (nsName ns) a)) ->
           availableFunctions n !! Name (makeActionToExecutable (nsName ns) a)
           = Some (makeActionToExecutable (nsName ns) a))
    /\ (forall name,
           (forall a, a ∈ actions ->
                      Name (makeActionToExecutable (nsName ns) a) <> name) ->
           availableFunctions n !! name = copyBuiltinExecutables !! name)
    /\ (forall pre t post,
           tbls = pre ++ t :: post ->
           (forall t', t' ∈ post -> TableName t' <> TableName t) ->
           tables n !! TableName t = Some t)
    /\ (forall name,
           (forall t, t ∈ tbls -> TableName t <> name) -> tables n !! name = None)
    /\ ns_namespaceType n = nsType ns
    /\ onDeploy n = Return None /\ onUndeploy n = Return None
    /\ (forall other, other <> nsName ns ->
                      namespaces interp' !! other = namespaces interp !! other).
Proof.
  intros Hload.
  destruct (loadNamespace_inv _ _ _ _ Hload) as (tbls & actions & Htbls & Hacts & ->).
  eexists tbls, actions, _. split; [done |]. split; [done |].
  split; [apply lookup_insert_eq |]. cbn.
  split; [| split; [| split; [| split; [| split; [| split; [| split]]]]]]; try done.
  - intros pre a post -> Hpost.
    by apply (foldl_insert_last
                (fun x => Name (makeActionToExecutable (nsName ns) x))
                (makeActionToExecutable (nsName ns))).
  - intros name Hno.
    by apply (foldl_insert_other
                (fun x => Name (makeActionToExecutable (nsName ns) x))
                (makeActionToExecutable (nsName ns))).
  - intros pre t post -> Hpost. by apply (foldl_insert_last TableName id).
  - intros name Hno. by rewrite (foldl_insert_other TableName id).
  - intros other Hne. by apply lookup_insert_ne.
Qed.

Lemma registerNamespace_mono name ac other :
  other ∈ registered ac -> other ∈ registered (registerNamespace name ac).
Proof. unfold registerNamespace. cbn. set_solver. Qed.

Lemma registerNamespace_in name ac : name ∈ registered (registerNamespace name ac).
Proof. unfold registerNamespace. cbn. set_solver. Qed.

Lemma insert_registered name (n : namespace) interp :
  namespaces_registered interp ->
  namespaces_registered
    {| namespaces := <[name := n]> (namespaces interp);
       bi_accessController := registerNamespace name (bi_accessController interp) |}.
Proof.
  intros Hreg other. cbn. destruct (decide (name = other)) as [<- | Hne].
  - intros _. apply registerNamespace_in.
  - rewrite lookup_insert_ne by done. intros Hin.
    apply registerNamespace_mono. by apply Hreg.
Qed.

Lemma loadNamespace_registered d interp ns interp' :
  namespaces_registered interp ->
  loadNamespace d interp ns = inl interp' ->
  namespaces_registered interp'.
Proof.
  intros Hreg Hload.
  destruct (loadNamespace_inv _ _ _ _ Hload) as (tbls & actions & _ & _ & ->).
  by apply insert_registered.
Qed.

Lemma loadNamespaces_registered d l : forall interp interp',
  namespaces_registered interp ->
  loadNamespaces d interp l = inl interp' ->
  namespaces_registered interp'.
Proof.
  induction l as [| ns l IH]; intros interp interp' Hreg Hload; cbn in Hload.
  - by injection Hload as <-.
  - destruct (loadNamespace d interp ns) as [interp1 | err] eqn:Hstep; [| discriminate].
    eapply IH; [| done]. by eapply loadNamespace_registered.
Qed.

Lemma loadExtension_inv d interp instances ext st' :
  loadExtension d (interp, instances) ext = inl st' ->
  exists sysExt ns inst,
    RegisteredPrecompiles !! ExtName ext = Some sysExt
    /\ initializeExtension d sysExt (Alias ext) (Metadata ext) = inl (ns, inst)
    /\ st' = ({| namespaces :=
                   <[Alias ext := match namespaces interp !! Alias ext with
                                  | Some existing => mergeExisting existing ns
                                  | None => ns
                                  end]> (namespaces interp);
                 bi_accessController :=
                   registerNamespace (Alias ext) (bi_accessController interp) |},
              instances ++ [inst]).
Proof.
  unfold loadExtension. intros Hload.
  destruct (RegisteredPrecompiles !! ExtName ext) as [sysExt |] eqn:Hreg; [| discriminate].
  destruct (initializeExtension d sysExt (Alias ext) (Metadata ext))
    as [[ns inst] | err] eqn:Hinit; [| discriminate].
  injection Hload as <-. by exists sysExt, ns, inst.
Qed.

Lemma loadExtensions_registered d l : forall st st',
  namespaces_registered st.1 ->
  loadExtensions d st l = inl st' ->
  namespaces_registered st'.1.
Proof.
  induction l as [| ext l IH]; intros [interp instances] st' Hreg Hload;
    cbn [loadExtensions] in Hload.
  - by injection Hload as <-.
  - destruct (loadExtension d (interp, instances) ext) as [st1 | err] eqn:Hstep;
      [| discriminate].
    eapply IH; [| done].
    destruct (loadExtension_inv _ _ _ _ _ Hstep) as (sysExt & ns & inst & _ & _ & ->).
    by apply insert_registered.
Qed.

Lemma startInstances_None d interp l :
  startInstances d interp l = None <-> Forall (fun inst => OnStart inst interp d = None) l.
Proof.
  induction l as [| inst l IH]; cbn.
  - split; [constructor | done].
  - destruct (OnStart inst interp d) as [err |] eqn:Hst.
    + split; [done |]. intros Hall. inversion Hall; congruence.
    + rewrite IH. split; [by constructor | intros Hall; by inversion Hall].
Qed.

Lemma loadInterpreter_inv d t :
  loadInterpreter d = inl t ->
  exists nss ac interp storedExts instances,
    listNamespaces d = inl nss
    /\ newAccessController d = inl ac
    /\ loadNamespaces d {| namespaces := ∅; bi_accessController := ac |} nss = inl interp
    /\ getExtensionInitializationMetadata d = inl storedExts
    /\ loadExtensions d (interp, []) storedExts = inl (ts_i t, instances)
    /\ startInstances d (ts_i t) instances = None
    /\ mu t = {| readers := 0; writer := false |}.
Proof.
  unfold loadInterpreter. intros Hload.
  destruct (listNamespaces d) as [nss | err]; [| discriminate].
  destruct (newAccessController d) as [ac | err]; [| discriminate].
  destruct (loadNamespaces d _ nss) as [interp | err] eqn:Hnss; [| discriminate].
  destruct (getExtensionInitializationMetadata d) as [storedExts | err]; [| discriminate].
  destruct (loadExtensions d (interp, []) storedExts) as [[interp' instances] | err]
    eqn:Hexts; [| discriminate].
  destruct (startInstances d interp' instances) as [err |] eqn:Hstart; [discriminate |].
  injection Hload as <-. cbn. by exists nss, ac, interp, storedExts, instances.
Qed.

Lemma NewInterpreter_inv d t :
  NewInterpreter d = inl t ->
  exists b d',
    querySchemaExists d = ([b], None)
    /\ (if b then d' = d else initSQL d = inl d')
    /\ loadInterpreter d' = inl t.
Proof.
  unfold NewInterpreter. intros Hnew.
  destruct (querySchemaExists d) as [rows [err |]]; [discriminate |].
  destruct rows as [| b [| b' rows]]; cbn in Hnew; try discriminate.
  destruct b; cbn in Hnew.
  - by exists true, d.
  - destruct (initSQL d) as [d' | err] eqn:Hinit; [| discriminate].
    by exists false, d'.
Qed.

(** X3: in the interpreter [NewInterpreter] returns, every namespace is
    registered with the access controller. *)
Theorem NewInterpreter_registers_every_namespace d t :
  NewInterpreter d = inl t -> namespaces_registered (ts_i t).
Proof.
  intros Hnew. destruct (NewInterpreter_inv _ _ Hnew) as (b & d' & _ & _ & Hload).
  destruct (loadInterpreter_inv _ _ Hload)
    as (nss & ac & interp & storedExts & instances & _ & _ & Hnss & _ & Hexts & _).
  assert (Hempty : namespaces_registered {| namespaces := ∅; bi_accessController := ac |}).
  { intros name Hin. cbn in Hin. rewrite lookup_empty in Hin. by destruct Hin. }
  pose proof (loadNamespaces_registered _ _ _ _ Hempty Hnss) as Hreg.
  apply (loadExtensions_registered d' storedExts (interp, []) (ts_i t, instances) Hreg Hexts).
Qed.

Lemma loadExtensions_instances d l : forall interp instances interp' instances',
  loadExtensions d (interp, instances) l = inl (interp', instances') ->
  exists started,
    instances' = instances ++ started
    /\ Forall2 (fun ext inst =>
                  exists sysExt ns,
                    RegisteredPrecompiles !! ExtName ext = Some sysExt
                    /\ initializeExtension d sysExt (Alias ext) (Metadata ext)
                       = inl (ns, inst)) l started.
Proof.
  induction l as [| ext l IH]; intros interp instances interp' instances' Hload;
    cbn [loadExtensions] in Hload.
  - injection Hload as <- <-. exists []. by rewrite app_nil_r.
  - destruct (loadExtension d (interp, instances) ext) as [st1 | err] eqn:Hstep;
      [| discriminate].
    destruct (loadExtension_inv _ _ _ _ _ Hstep)
      as (sysExt & ns & inst & Hreg & Hinit & ->).
    destruct (IH _ _ _ _ Hload) as (started & -> & Hall).
    exists (inst :: started). split; [by rewrite <- app_assoc |].
    constructor; [| done]. by exists sysExt, ns.
Qed.

(** X4: when [NewInterpreter] succeeds, the existence query on the metadata
    schema came back with exactly one row and no error, and the
    initialization DDL was run exactly when that row said the schema is
    absent; every persisted extension was found in the registry and
    initialized, one instance each, in order; and every instance was started
    without error against the interpreter that is returned, that is after all
    of them were loaded. The lock of the returned wrapper is free. *)
Theorem NewInterpreter_success d t :
  NewInterpreter d = inl t ->
  exists b d' storedExts instances,
    querySchemaExists d = ([b], None)
    /\ (if b then d' = d else initSQL d = inl d')
    /\ getExtensionInitializationMetadata d' = inl storedExts
    /\ Forall2 (fun ext inst =>
                  exists sysExt ns,
                    RegisteredPrecompiles !! ExtName ext = Some sysExt
                    /\ initializeExtension d' sysExt (Alias ext) (Metadata ext)
                       = inl (ns, inst)) storedExts instances
    /\ Forall (fun inst => OnStart inst (ts_i t) d' = None) instances
    /\ mu t = {| readers := 0; writer := false |}.
Proof.
  intros Hnew. destruct (NewInterpreter_inv _ _ Hnew) as (b & d' & Hq & Hinit & Hload).
  destruct (loadInterpreter_inv _ _ Hload)
    as (nss & ac & interp & storedExts & instances & _ & _ & _ & Hmeta & Hexts & Hstart & Hmu).
  destruct (loadExtensions_instances _ _ _ _ _ _ Hexts) as (started & Hst & Hall).
  cbn in Hst. subst instances.
  exists b, d', storedExts, started. repeat (split; [done |]).
  split; [by apply startInstances_None | done].
Qed.


Lemma loadExtensions_names d l : forall st st',
  loadExtensions d st l = inl st' ->
  forall name,
    is_Some (namespaces st'.1 !! name)
    <-> is_Some (namespaces st.1 !! name) \/ name ∈ map Alias l.
Proof.
  induction l as [| ext l IH]; intros [interp instances] st' Hload name;
    cbn [loadExtensions] in Hload.
  - injection Hload as <-. cbn. rewrite elem_of_nil. tauto.
  - destruct (loadExtension d (interp, instances) ext) as [st1 | err] eqn:Hstep;
      [| discriminate].
    rewrite (IH _ _ Hload name).
    destruct (loadExtension_inv _ _ _ _ _ Hstep) as (sysExt & ns & inst & _ & _ & ->).
    cbn. rewrite lookup_insert_is_Some', elem_of_cons.
    assert (Alias ext = name <-> name = Alias ext) by (split; congruence). tauto.
Qed.



End ConstructionFacts.

Lemma loadNamespace_actions_override_witness :
  exists tbls actions n,
    listTablesInNamespace (Store := Demo.store) Demo.rw "tokens" = inl tbls
    /\ listActionsInNamespace (Store := Demo.store) Demo.rw "tokens" = inl actions
    /\ namespaces Demo2.loadedTokens !! "tokens" = Some n
    /\ ns_namespaceType n = namespaceTypeUser.
Proof.
  destruct (loadNamespace_actions_override (H0 := Demo.store) Demo.rw
              Demo2.emptyInterpreter Demo2.tokensListing Demo2.loadedTokens)
    as (tbls & actions & n & Ht & Ha & Hn & _ & _ & _ & _ & Hty & _).
  - vm_compute. reflexivity.
  - by exists tbls, actions, n.
Defined.

Lemma NewInterpreter_registers_every_namespace_witness :
  namespaces_registered (ts_i Demo2.constructed).
Proof.
  apply (NewInterpreter_registers_every_namespace (H0 := Demo.store) Demo.rw).
  vm_compute. reflexivity.
Defined.

Lemma NewInterpreter_success_witness :
  exists b d' storedExts instances,
    querySchemaExists (Store := Demo.store) Demo.rw = ([b], None)
    /\ (if b then d' = Demo.rw else initSQL (Store := Demo.store) Demo.rw = inl d')
    /\ getExtensionInitializationMetadata (Store := Demo.store) d' = inl storedExts
    /\ Forall2 (fun ext inst =>
                  exists sysExt ns,
                    RegisteredPrecompiles (Store := Demo.store) !! ExtName ext = Some sysExt
                    /\ initializeExtension (Store := Demo.store) d' sysExt (Alias ext)
                         (Metadata ext) = inl (ns, inst)) storedExts instances
    /\ Forall (fun inst => OnStart (Store := Demo.store) inst (ts_i Demo2.constructed) d'
                           = None) instances
    /\ mu Demo2.constructed = {| readers := 0; writer := false |}.
Proof.
  apply (NewInterpreter_success (H0 := Demo.store) Demo.rw Demo2.constructed).
  vm_compute. reflexivity.
Defined.



(** ** Variable names: which error for which defect *)

Lemma identRegexp_rule s :
  Regexp.MatchString identRegexp s = true <-> starts_with_letter s /\ charset_ok s.
Proof.
  rewrite identRegexp_spec. unfold starts_with_letter, charset_ok. split.
  - intros (c & rest & -> & Hc & Hrest). split; [by exists c, rest |].
    cbn. constructor; [by apply isLetter_isIdentChar | done].
  - intros [(c & rest & -> & Hc) Hall]. exists c, rest.
    cbn in Hall. by inversion Hall.
Qed.

(** X7: [isValidVarName] reports a missing sigil first, then a remainder
    that is not an identifier (it must begin with a letter and hold only
    letters, digits and underscores), then a remainder that is too long;
    there is no other error, and each error is returned exactly in its
    case. *)
Theorem isValidVarName_errors (max : nat) (s : string) :
  (isValidVarName max s = Some ErrVarNameSigil
   <-> ~ exists rest, s = String "$" rest)
  /\ (isValidVarName max s = Some ErrVarNameCharset
      <-> exists rest, s = String "$" rest
                       /\ ~ (starts_with_letter rest /\ charset_ok rest))
  /\ (forall m s',
         isValidVarName max s = Some (ErrVarNameTooLong m s')
         <-> m = max /\ s' = s
             /\ exists rest, s = String "$" rest
                             /\ starts_with_letter rest /\ charset_ok rest
                             /\ max < String.length rest)
  /\ (forall err,
         isValidVarName max s = Some err ->
         err = ErrVarNameSigil \/ err = ErrVarNameCharset
         \/ err = ErrVarNameTooLong max s).
Proof.
  unfold isValidVarName.
  destruct (HasPrefix s "$") eqn:Hp; cbn [negb].
  - apply HasPrefix_sigil in Hp as [rest ->]. cbn [from1].
    destruct (Regexp.MatchString identRegexp rest) eqn:Hm; cbn [negb].
    + pose proof (proj1 (identRegexp_rule rest) Hm) as [Hl Hc].
      destruct (Nat.ltb max (String.length rest)) eqn:Hlen.
      * apply Nat.ltb_lt in Hlen. split; [| split; [| split]].
        -- split; [discriminate | intros Hno; exfalso; apply Hno; eauto].
        -- split; [discriminate |]. intros (rest' & [= <-] & Hno). tauto.
        -- intros m s'. split.
           ++ intros [= <- <-]. repeat split; eauto.
           ++ intros (-> & -> & _). done.
        -- intros err [= <-]. auto.
      * apply Nat.ltb_ge in Hlen. split; [| split; [| split]].
        -- split; [discriminate | intros Hno; exfalso; apply Hno; eauto].
        -- split; [discriminate |]. intros (rest' & [= <-] & Hno). tauto.
        -- intros m s'. split; [discriminate |].
           intros (_ & _ & rest' & [= <-] & _ & _ & Hlt). lia.
        -- intros err [=].
    + assert (Hno : ~ (starts_with_letter rest /\ charset_ok rest)).
      { intros Hboth. apply identRegexp_rule in Hboth. congruence. }
      split; [| split; [| split]].
      * split; [discriminate | intros Hn; exfalso; apply Hn; eauto].
      * split; [eauto | done].
      * intros m s'. split; [discriminate |].
        intros (_ & _ & rest' & [= <-] & Hl & Hc & _). tauto.
      * intros err [= <-]. auto.
  - assert (Hno : ~ exists rest, s = String "$" rest).
    { intros Hex. apply HasPrefix_sigil in Hex. congruence. }
    split; [| split; [| split]].
    + done.
    + split; [discriminate |]. intros (rest & -> & _). exfalso. apply Hno. eauto.
    + intros m s'. split; [discriminate |].
      intros (_ & _ & rest & -> & _). exfalso. apply Hno. eauto.
    + intros err [= <-]. auto.
Qed.

(** ** [call]: the arguments *)

Section Arguments.

Context `{Host}.

Lemma bind_newExecCtx_eq {B} i ctx d namespace toplevel w am
    (f : result (executionContext * frame) -> M B) :
  access d = Some am ->
  bind (newExecCtx i ctx d namespace toplevel) f w
  = f (inl (contextIn i ctx d am w, freshFrame namespace toplevel))
      {| heap := heap w ++ [[]]; trace := trace w |}.
Proof. intros Ha. unfold bind. by rewrite (newExecCtx_eq _ _ _ _ _ _ am Ha). Qed.

Lemma convertArgs_inl args : forall vals,
  convertArgs args = inl vals <-> Forall2 (fun a v => NewValue a = inl v) args vals.
Proof.
  induction args as [| a args IH]; intros vals; cbn.
  - split; [intros [= <-]; constructor | intros Hall; by inversion Hall].
  - destruct (NewValue a) as [v | err] eqn:Hv.
    + destruct (convertArgs args) as [vs | err] eqn:Hvs.
      * split.
        -- intros [= <-]. constructor; [done | by apply IH].
        -- intros Hall. inversion Hall as [| ? v' ? vs' Hv' Hvs']; subst.
           apply IH in Hvs'. congruence.
      * split; [discriminate |].
        intros Hall. inversion Hall as [| ? v' ? vs' Hv' Hvs']; subst.
        apply IH in Hvs'. discriminate.
    + split; [discriminate |].
      intros Hall. inversion Hall; congruence.
Qed.

Lemma convertArgs_inr pre a post err :
  Forall (fun x => exists v, NewValue x = inl v) pre ->
  NewValue a = inr err ->
  convertArgs (pre ++ a :: post) = inr err.
Proof.
  intros Hpre Ha. induction Hpre as [| x pre [v Hv] _ IH]; cbn.
  - by rewrite Ha.
  - by rewrite Hv, IH.
Qed.

(** X8: when a host argument does not convert to a Value, [call] on a
    resolved action or precompile fails with the conversion error of the
    first such argument; the executable's function is not entered, nothing is
    logged or queried, and no row reaches the result function. *)
Theorem call_unconvertible_argument depth i ctx d namespace action pre a post
    resultFn toplevel w am ns exec err :
  access d = Some am ->
  namespaces i !! namespaceKey namespace = Some ns ->
  availableFunctions ns !! ToLower action = Some exec ->
  Type_ exec = executableTypeAction \/ Type_ exec = executableTypePrecompile ->
  Forall (fun x => exists v, NewValue x = inl v) pre ->
  NewValue a = inr err ->
  call depth i ctx d namespace action (pre ++ a :: post) resultFn toplevel w
  = (inl (inr err, []), {| heap := heap w ++ [[]]; trace := trace w |}).
Proof.
  intros Ha Hns Hact Hty Hpre Herr.
  unfold call, call_body. rewrite (bind_newExecCtx_eq _ _ _ _ _ _ am _ Ha).
  fold (namespaceKey namespace). rewrite Hns, Hact.
  rewrite (convertArgs_inr pre a post err Hpre Herr).
  by destruct Hty as [-> | ->].
Qed.

(** ** [execute]: the statement loop *)

Lemma bind_observe {B} ev (f : unit -> M B) w :
  bind (observe ev) f w = f tt {| heap := heap w; trace := trace w ++ [ev] |}.
Proof. reflexivity. Qed.

Lemma bind_eq_inl {A B} (m : M A) (f : A -> M B) w a w1 :
  m w = (inl a, w1) -> bind m f w = f a w1.
Proof. intros Hm. unfold bind. by rewrite Hm. Qed.

Lemma bind_eq_inr {A B} (m : M A) (f : A -> M B) w x w1 :
  m w = (inr x, w1) -> bind m f w = (inr x, w1).
Proof. intros Hm. unfold bind. by rewrite Hm. Qed.

(** X9: the statement loop of [execute] stops at the first statement that
    fails: when running a list of statements ends in an error (or does not
    come back), running the same list followed by further statements ends in
    the same way and the same state, so none of the further statements has
    any effect; when it ends without error, the further statements are run
    next, from the state and with the index it ended in. *)
Theorem runStatements_stops_at_first_failure callRec executeRec e fn pre post :
  forall index fr w r w1,
    runStatements callRec executeRec e fn index pre fr w = (r, w1) ->
    match r with
    | inl (None, fr1) =>
        runStatements callRec executeRec e fn index (pre ++ post) fr w
        = runStatements callRec executeRec e fn (index + length pre) post fr1 w1
    | _ =>
        runStatements callRec executeRec e fn index (pre ++ post) fr w = (r, w1)
    end.
Proof.
  induction pre as [| stmt pre IH]; intros index fr w r w1 E.
  - cbn in E. injection E as <- <-. cbn. by rewrite Nat.add_0_r.
  - cbn [runStatements] in E. cbn [runStatements app length].
    rewrite bind_observe in E. rewrite bind_observe.
    apply bind_inv in E as [(x & Em & ->) | (x & w2 & Em & E)].
    + by rewrite (bind_eq_inr _ _ _ _ _ Em).
    + rewrite (bind_eq_inl _ _ _ _ _ Em).
      destruct x as [[err |] fr2]; cbn [fst snd] in *.
      * by injection E as <- <-.
      * specialize (IH (S index) fr2 w2 r w1 E). by rewrite Nat.add_succ_r.
Qed.

End Arguments.

Lemma call_unconvertible_argument_witness :
  call (H := Demo.host) 0 Demo.interp Demo.ctx Demo.rw "main" "greet"
       ([AnyInt 1] ++ AnyOpaque "chan" :: [AnyString "later"]) None true Demo.w0
  = (inl (inr (ErrExternal "cannot convert chan"), []),
     {| heap := heap Demo.w0 ++ [[]]; trace := trace Demo.w0 |}).
Proof.
  apply (call_unconvertible_argument (H := Demo.host) 0 Demo.interp Demo.ctx Demo.rw
           "main" "greet" [AnyInt 1] (AnyOpaque "chan") [AnyString "later"] None true
           Demo.w0 ReadWrite Demo.mainNamespace Demo.greet).
  - reflexivity.
  - reflexivity.
  - reflexivity.
  - by left.
  - constructor; [by eexists | constructor].
  - reflexivity.
Defined.

Lemma runStatements_stops_at_first_failure_witness :
  let e := contextIn Demo.interp Demo.ctx Demo.rw ReadWrite Demo.w0 in
  runStatements (H := Demo.host) (nested_call (H := Demo.host) 0)
    (nested_execute (H := Demo.host) 0) e (Some noopSink) 0
    ([Demo.SelectVar "$missing"] ++ [Demo.SelectOne]) (freshFrame "main" true) Demo.w0
  = (inl (Some (ErrExternal "unknown variable $missing"), freshFrame "main" true),
     {| heap := []; trace := [EvStatement 0] |}).
Proof.
  intros e.
  apply (runStatements_stops_at_first_failure (H := Demo.host)
           (nested_call (H := Demo.host) 0) (nested_execute (H := Demo.host) 0) e
           (Some noopSink) [Demo.SelectVar "$missing"] [Demo.SelectOne] 0
           (freshFrame "main" true) Demo.w0
           (inl (Some (ErrExternal "unknown variable $missing"), freshFrame "main" true))
           {| heap := []; trace := [EvStatement 0] |}).
  reflexivity.
Defined.

(** ** Built-in executables: what one run can do *)

Section BuiltinFootprint.

Context `{Host}.

(** X10: one run of a built-in executable does at most one thing to the
    world: [notice] writes at most one line to the log buffer of its
    execution context and never queries the database handle; any other
    built-in sends at most one query and writes no line. A run hands at most
    one row to the result function ([notice] none), leaves the scope as it
    was, and never calls back into the engine. When the descriptor rejects
    the argument types, the error is returned and nothing else happens. *)
Theorem builtin_footprint funcName funcDef callRec executeRec e fn fr w args :
  let out := run callRec executeRec e fn
               (Func (funcDefToExecutable funcName funcDef) args) fr w in
  (exists tr : list event,
      trace out.2 = trace w ++ tr
      /\ (tr = []
          \/ (exists line, funcName = "notice" /\ tr = [EvLog (logs e) line])
          \/ (exists sql, funcName <> "notice" /\ tr = [EvQuery sql args])))
  /\ (forall x,
         out.1 = inl x ->
         fscope x.2 = fscope fr
         /\ exists rows : list Row,
              delivered x.2 = delivered fr ++ rows
              /\ length rows <= 1
              /\ (funcName = "notice" -> rows = []))
  /\ (forall err,
         ValidateArgsFunc funcDef (map val_Type args) = inr err ->
         out = (inl (Some err, fr), w)).
Proof.
  intros out. subst out. cbn [Func funcDefToExecutable].
  assert (Hquiet : forall (r : option error) ,
             (exists tr : list event,
                 trace (ret (r, fr) w).2 = trace w ++ tr
                 /\ (tr = []
                     \/ (exists line, funcName = "notice" /\ tr = [EvLog (logs e) line])
                     \/ (exists sql, funcName <> "notice" /\ tr = [EvQuery sql args])))
             /\ (forall x,
                    (ret (r, fr) w).1 = inl x ->
                    fscope x.2 = fscope fr
                    /\ exists rows : list Row,
                         delivered x.2 = delivered fr ++ rows
                         /\ length rows <= 1
                         /\ (funcName = "notice" -> rows = []))).
  { intros r. split.
    - exists []. cbn. rewrite app_nil_r. auto.
    - intros x [= <-]. split; [done |]. exists []. cbn. rewrite app_nil_r. auto. }
  assert (Hcrash : forall msg,
             (exists tr : list event,
                 trace (throw (A := option error * frame) (Panics (PanicRaised msg)) w).2
                 = trace w ++ tr
                 /\ (tr = []
                     \/ (exists line, funcName = "notice" /\ tr = [EvLog (logs e) line])
                     \/ (exists sql, funcName <> "notice" /\ tr = [EvQuery sql args])))
             /\ (forall x,
                    (throw (A := option error * frame) (Panics (PanicRaised msg)) w).1
                    = inl x ->
                    fscope x.2 = fscope fr
                    /\ exists rows : list Row,
                         delivered x.2 = delivered fr ++ rows
                         /\ length rows <= 1
                         /\ (funcName = "notice" -> rows = []))).
  { intros msg. split; [| discriminate]. exists []. cbn. rewrite app_nil_r. auto. }
  destruct (ValidateArgsFunc funcDef (map val_Type args)) as [retTyp | verr].
  2: { cbn [run]. destruct (Hquiet (Some verr)) as [Ht Hr].
       split; [done |]. split; [done |]. by intros err [= <-]. }
  destruct (String.eqb funcName "notice") eqn:Hname.
  - apply String.eqb_eq in Hname. subst funcName.
    destruct args as [| a args]; [cbn [run]; destruct (Hcrash "index out of range [0] with length 0"); split; [done | split; [done | discriminate]] |].
    destruct (RawValue a) as [| line | | |];
      try (cbn [run]; destruct (Hcrash "interface conversion: interface {} is not string");
           split; [done | split; [done | discriminate]]).
    cbn [run]. unfold bind, appendLog.
    destruct (heap w !! logs e) as [buf |]; cbn.
    + split; [| split; [| discriminate]].
      * exists [EvLog (logs e) line]. split; [done |]. right. left. eauto.
      * intros x [= <-]. split; [done |]. exists []. cbn. rewrite app_nil_r. auto.
    + split; [| split; discriminate]. exists []. rewrite app_nil_r. auto.
  - apply String.eqb_neq in Hname.
    destruct (NewZeroValue retTyp) as [zeroVal | zerr].
    2: { cbn [run]. destruct (Hquiet (Some zerr)). split; [done | split; [done | discriminate]]. }
    destruct (PGFormatFunc funcDef _) as [pgFormat | ferr].
    2: { cbn [run]. destruct (Hquiet (Some ferr)). split; [done | split; [done | discriminate]]. }
    cbn [run]. unfold bind at 1 2 3. unfold query. cbn beta.
    destruct (respond (db e) (trace w) _ args) as [raws qerr]. cbn [fst snd trace].
    assert (Htr : exists tr : list event,
               trace w ++ [EvQuery ("SELECT " +:+ pgFormat +:+ ";") args] = trace w ++ tr
               /\ (tr = []
                   \/ (exists line, funcName = "notice" /\ tr = [EvLog (logs e) line])
                   \/ (exists sql, funcName <> "notice" /\ tr = [EvQuery sql args]))).
    { eexists. split; [done |]. right. right. eauto. }
    destruct qerr as [qerr |]; cbn [run]; unfold ret; cbn [fst snd trace].
    { split; [exact Htr |]. split; [| discriminate].
      intros x [= <-]. split; [done |]. exists []. cbn. rewrite app_nil_r. auto. }
    destruct (negb (Nat.eqb (length (map (scanInto [zeroVal]) raws)) 1)); cbn [run]; unfold ret; cbn [fst snd trace].
    { split; [exact Htr |]. split; [| discriminate].
      intros x [= <-]. split; [done |]. exists []. cbn. rewrite app_nil_r. auto. }
    unfold bind, invokeSink. destruct fn as [f |]; cbn.
    + split; [exact Htr |]. split; [| discriminate].
      intros x [= <-]. cbn. split; [done |]. eexists [_]. split; [done |].
      split; [cbn; lia | done].
    + split; [exact Htr |]. split; discriminate.
Qed.

End BuiltinFootprint.

(** ** From construction to resolution *)

Section ConstructedResolution.

Context `{Store}.

(** What the namespace loop leaves under a persisted name: the built-in
    table with the persisted actions of that name written over it. *)
Lemma loadNamespaces_functions d l : forall interp interp',
  loadNamespaces d interp l = inl interp' ->
  forall name,
    name ∈ map nsName l ->
    exists n actions,
      namespaces interp' !! name = Some n
      /\ listActionsInNamespace d name = inl actions
      /\ availableFunctions n
         = foldl (fun m action =>
                    <[Name (makeActionToExecutable name action)
                      := makeActionToExecutable name action]> m)
                 copyBuiltinExecutables actions.
Proof.
  induction l as [| ns l IH]; intros interp interp' Hload name Hin; cbn in Hload.
  - by apply elem_of_nil in Hin.
  - destruct (loadNamespace d interp ns) as [interp1 | err] eqn:Hstep; [| discriminate].
    destruct (decide (name ∈ map nsName l)) as [Hl | Hl]; [by eapply IH |].
    cbn in Hin. apply elem_of_cons in Hin as [-> | Hin]; [| done].
    assert (Hsame : namespaces interp' !! nsName ns = namespaces interp1 !! nsName ns).
    { clear -Hload Hl. revert interp1 Hload.
      induction l as [| ns' l IH]; intros interp1 Hload; cbn in Hload.
      - by injection Hload as <-.
      - destruct (loadNamespace d interp1 ns') as [interp2 | err] eqn:Hstep; [| discriminate].
        cbn in Hl. apply not_elem_of_cons in Hl as [Hne Hl].
        rewrite (IH Hl _ Hload).
        destruct (loadNamespace_inv _ _ _ _ Hstep) as (tbls & actions & _ & _ & ->).
        cbn. by apply lookup_insert_ne. }
    destruct (loadNamespace_inv _ _ _ _ Hstep) as (tbls & actions & _ & Hacts & ->).
    eexists _, actions. rewrite Hsame. cbn. rewrite lookup_insert_eq. by split.
Qed.

(** The extension loop never takes an executable away from a namespace nor
    replaces it. *)
Lemma loadExtensions_keep d l : forall st st',
  loadExtensions d st l = inl st' ->
  forall name n f exec,
    namespaces st.1 !! name = Some n ->
    availableFunctions n !! f = Some exec ->
    exists n',
      namespaces st'.1 !! name = Some n' /\ availableFunctions n' !! f = Some exec.
Proof.
  induction l as [| ext l IH]; intros [interp instances] st' Hload name n f exec Hn Hf;
    cbn [loadExtensions] in Hload.
  - injection Hload as <-. by exists n.
  - destruct (loadExtension d (interp, instances) ext) as [st1 | err] eqn:Hstep;
      [| discriminate].
    destruct (loadExtension_inv _ _ _ _ _ Hstep) as (sysExt & ns & inst & _ & _ & ->).
    cbn in Hn. destruct (decide (Alias ext = name)) as [Heq | Hne].
    + subst name. rewrite Hn in Hload.
      eapply (IH _ _ Hload (Alias ext) (mergeExisting n ns) f exec).
      * cbn. apply lookup_insert_eq.
      * by rewrite mergeExisting_lookup, Hf.
    + eapply (IH _ _ Hload name n f exec); [| done].
      cbn. by rewrite lookup_insert_ne.
Qed.

(** X11: in the interpreter [NewInterpreter] returns, a persisted namespace
    resolves the name of a persisted action to that action (the last one of
    the name) and every other scalar built-in name to the built-in, whatever
    the extensions loaded under the same alias bring along; and a call from
    outside to such a built-in, under any spelling of the namespace and of
    the name that lower-cases to them, is turned down as not callable
    directly, with nothing run, logged or queried. *)
Theorem constructed_namespace_resolution depth d t b d' nss name actions :
  NewInterpreter d = inl t ->
  querySchemaExists d = ([b], None) ->
  (if b then d' = d else initSQL d = inl d') ->
  listNamespaces d' = inl nss ->
  name ∈ map nsName nss ->
  listActionsInNamespace d' name = inl actions ->
  exists n,
    namespaces (ts_i t) !! name = Some n
    /\ (forall pre a post,
           actions = pre ++ a :: post ->
           (forall a', a' ∈ post ->
                       Name (makeActionToExecutable name a')
                       <> Name (makeActionToExecutable name a)) ->
           availableFunctions n !! Name (makeActionToExecutable name a)
           = Some (makeActionToExecutable name a))
    /\ (forall f def,
           Functions !! f = Some (ScalarDef def) ->
           (forall a, a ∈ actions -> Name (makeActionToExecutable name a) <> f) ->
           availableFunctions n !! f = Some (funcDefToExecutable f def)
           /\ forall ctx db namespace action args resultFn toplevel w,
                is_Some (access db) ->
                namespaceKey namespace = name ->
                ToLower action = f ->
                call depth (ts_i t) ctx db namespace action args resultFn toplevel w
                = (inl (inr (ErrBuiltinNotCallable f), []),
                   {| heap := heap w ++ [[]]; trace := trace w |})).
Proof.
  intros Hnew Hq Hinit Hlist Hin Hacts.
  destruct (NewInterpreter_inv _ _ Hnew) as (b0 & d0 & Hq0 & Hinit0 & Hload).
  rewrite Hq in Hq0. injection Hq0 as <-.
  assert (d0 = d') as ->.
  { destruct b; [congruence |]. rewrite Hinit in Hinit0. by injection Hinit0. }
  destruct (loadInterpreter_inv _ _ Hload)
    as (nss0 & ac & interp & storedExts & instances & Hlist0 & _ & Hnss & _ & Hexts & _).
  rewrite Hlist in Hlist0. injection Hlist0 as <-.
  destruct (loadNamespaces_functions _ _ _ _ Hnss name Hin)
    as (n0 & actions0 & Hn0 & Hacts0 & Hfns).
  rewrite Hacts in Hacts0. injection Hacts0 as <-.
  assert (Hkeep : forall f exec,
             availableFunctions n0 !! f = Some exec ->
             exists n, namespaces (ts_i t) !! name = Some n
                       /\ availableFunctions n !! f = Some exec).
  { intros f exec Hf.
    apply (loadExtensions_keep _ _ _ _ Hexts name n0 f exec Hn0 Hf). }
  assert (Hsome : exists n, namespaces (ts_i t) !! name = Some n).
  { destruct (loadExtensions_names _ _ _ _ Hexts name) as [_ Hback].
    destruct Hback as [n Hn]; [left; by exists n0 | by exists n]. }
  destruct Hsome as [n Hn]. exists n. split; [done |].
  assert (Hkeep' : forall f exec,
             availableFunctions n0 !! f = Some exec ->
             availableFunctions n !! f = Some exec).
  { intros f exec Hf. destruct (Hkeep f exec Hf) as (n' & Hn' & Hf'). congruence. }
  split.
  - intros pre a post -> Hpost. apply Hkeep'. rewrite Hfns.
    by apply (foldl_insert_last
                (fun x => Name (makeActionToExecutable name x))
                (makeActionToExecutable name)).
  - intros f def Hdef Hno.
    assert (Hf : availableFunctions n !! f = Some (funcDefToExecutable f def)).
    { apply Hkeep'. rewrite Hfns.
      rewrite (foldl_insert_other
                 (fun x => Name (makeActionToExecutable name x))
                 (makeActionToExecutable name)) by done.
      by rewrite copyBuiltinExecutables_eq, builtInExecutables_lookup, Hdef. }
    split; [done |].
    intros ctx db namespace action args resultFn toplevel w [am Ham] Hkey Hact.
    rewrite <- Hact.
    apply (call_Function depth (ts_i t) ctx db namespace action args resultFn toplevel w
             am n (funcDefToExecutable f def)); [done | by rewrite Hkey | by rewrite Hact | done].
Qed.

End ConstructedResolution.

Lemma constructed_namespace_resolution_witness :
  exists n,
    namespaces (ts_i Demo2.constructed) !! "tokens" = Some n
    /\ availableFunctions n !! "abs"
       = Some (funcDefToExecutable (H := Demo.host) "abs" Demo.absDef)
    /\ call (H := Demo.host) 0 (ts_i Demo2.constructed) Demo.ctx Demo.ro "Tokens" "ABS"
            [AnyInt 3] None true Demo.w0
       = (inl (inr (ErrBuiltinNotCallable "abs"), []),
          {| heap := heap Demo.w0 ++ [[]]; trace := trace Demo.w0 |}).
Proof.
  destruct (constructed_namespace_resolution (H0 := Demo.store) 0 Demo.rw Demo2.constructed
              true Demo.rw
              [{| nsName := "main"; nsType := namespaceTypeSystem |};
               {| nsName := "tokens"; nsType := namespaceTypeUser |}]
              "tokens" [("ping", AppendLog "user ping" (Return None))])
    as (n & Hn & _ & Hbuiltin).
  - vm_compute. reflexivity.
  - reflexivity.
  - reflexivity.
  - reflexivity.
  - cbn. set_solver.
  - reflexivity.
  - exists n. split; [done |].
    destruct (Hbuiltin "abs" Demo.absDef) as [Hf Hcall].
    + reflexivity.
    + intros a Ha. apply list_elem_of_singleton in Ha as ->. cbn. discriminate.
    + split; [done |].
      apply (Hcall Demo.ctx Demo.ro "Tokens" "ABS" [AnyInt 3] None true Demo.w0).
      * by exists ReadOnly.
      * reflexivity.
      * reflexivity.
Defined.

(** ** The locking wrapper: the lock is given back and nobody waits for ever *)

Section WrapperProgress.

Context `{Host}.







End WrapperProgress.


(** ** The rows a result function is handed *)

Section DeliveredRows.

Context `{Host}.

Lemma rowToCommonRow_parallel r : parallel (rowToCommonRow r).
Proof. by exists (Values r). Qed.

Lemma parallel_lengths R : parallel R -> length (ColumnTypes R) = length (RowValues R).
Proof. intros (vals & -> & ->). by rewrite !length_map. Qed.

(** Whatever a closure does, the rows its result function is handed are
    added at the end of those handed before, each one made by
    [rowToCommonRow]. *)
Lemma run_delivers callRec executeRec e fn p : forall fr w x w',
  run callRec executeRec e fn p fr w = (inl x, w') ->
  exists rows, delivered x.2 = delivered fr ++ rows /\ Forall parallel rows.
Proof.
  induction p as [err | msg | line k IH | sql scan args k IH | r k IH | k IH | s k IH
                 | namespace action args nfn k IH | statement params nfn k IH];
    intros fr w x w' E; cbn [run] in E.
  - injection E as <- <-. exists []. by rewrite app_nil_r.
  - discriminate.
  - apply bind_inv in E as [(a & _ & [=]) | (u & w1 & _ & E)]. by eapply IH.
  - apply bind_inv in E as [(a & _ & [=]) | (u & w1 & _ & E)]. by eapply IH.
  - apply bind_inv in E as [(a & _ & [=]) | (u & w1 & Em & E)].
    unfold invokeSink in Em. destruct fn as [f |]; [| discriminate].
    injection Em as <- <-. cbn [fst snd] in E.
    destruct (IH _ _ _ _ _ E) as (rows & Hrows & Hall). cbn in Hrows.
    exists (rowToCommonRow r :: rows). split.
    + by rewrite Hrows, <- app_assoc.
    + constructor; [apply rowToCommonRow_parallel | done].
  - by eapply IH.
  - destruct (IH _ _ _ _ E) as (rows & Hrows & Hall). by exists rows.
  - apply bind_inv in E as [(a & _ & [=]) | (u & w1 & _ & E)]. by eapply IH.
  - apply bind_inv in E as [(a & _ & [=]) | (u & w1 & _ & E)]. by eapply IH.
Qed.

Lemma runStatements_delivers callRec executeRec e fn ast : forall index fr w x w',
  runStatements callRec executeRec e fn index ast fr w = (inl x, w') ->
  exists rows, delivered x.2 = delivered fr ++ rows /\ Forall parallel rows.
Proof.
  induction ast as [| stmt ast IH]; intros index fr w x w' E; cbn [runStatements] in E.
  - injection E as <- <-. exists []. by rewrite app_nil_r.
  - rewrite bind_observe in E.
    apply bind_inv in E as [(a & _ & [=]) | (u & w1 & Em & E)].
    destruct (run_delivers _ _ _ _ _ _ _ _ _ Em) as (rows1 & Hrows1 & Hall1).
    destruct u as [[err |] fr1]; cbn [fst snd] in *.
    + injection E as <- <-. by exists rows1.
    + destruct (IH _ _ _ _ _ E) as (rows2 & Hrows2 & Hall2).
      exists (rows1 ++ rows2). split.
      * by rewrite Hrows2, Hrows1, <- app_assoc.
      * by apply Forall_app.
Qed.

Lemma newExecCtx_delivered i ctx d namespace toplevel w e fr w1 :
  newExecCtx i ctx d namespace toplevel w = (inl (inl (e, fr)), w1) ->
  delivered fr = [].
Proof.
  unfold newExecCtx. destruct (access d) as [am |]; [| discriminate].
  unfold bind, allocLogs, ret. by intros [= _ <- _].
Qed.

(** X13: every row the result function of a [call] or of an [execute] is
    handed has been made by [rowToCommonRow]: its column types and its raw
    values are read off the same values position by position, so there is
    one type for every value; this holds whatever the action, the extension
    method or the statements do, and also for the rows handed over before an
    error is returned. *)
Theorem result_rows_are_parallel depth :
  (forall i ctx d namespace action args resultFn toplevel w x w',
      call depth i ctx d namespace action args resultFn toplevel w = (inl x, w') ->
      Forall parallel x.2
      /\ Forall (fun R => length (ColumnTypes R) = length (RowValues R)) x.2)
  /\ (forall i ctx d statement params fn toplevel w x w',
         execute depth i ctx d statement params fn toplevel w = (inl x, w') ->
         Forall parallel x.2
         /\ Forall (fun R => length (ColumnTypes R) = length (RowValues R)) x.2).
Proof.
  assert (Hlen : forall rows : list Row,
             Forall parallel rows ->
             Forall parallel rows
             /\ Forall (fun R => length (ColumnTypes R) = length (RowValues R)) rows).
  { intros rows Hall. split; [done |].
    eapply Forall_impl; [exact Hall |]. apply parallel_lengths. }
  assert (Hnil : forall (A : Type) (a : A) (w0 w' : world) (x : A * list Row),
             ret (a, @nil Row) w0 = (inl x, w') -> Forall parallel x.2).
  { intros A a w0 w' x [= <- _]. constructor. }
  split.
  - intros i ctx d namespace action args resultFn toplevel w x w' E.
    apply Hlen. unfold call, call_body in E.
    apply bind_inv in E as [(a & _ & [=]) | (c & w1 & Hctx & E)].
    destruct c as [[execCtx fr] | err]; [| by eapply Hnil].
    apply newExecCtx_delivered in Hctx.
    destruct (namespaces i !! _) as [ns |]; [| by eapply Hnil].
    destruct (availableFunctions ns !! _) as [exec |]; [| by eapply Hnil].
    destruct (Type_ exec); try (by eapply Hnil);
      (destruct (convertArgs args) as [argVals | err]; [| by eapply Hnil];
       rewrite bind_observe in E;
       apply bind_inv in E as [(a & _ & [=]) | (u & w2 & Em & E)];
       destruct (run_delivers _ _ _ _ _ _ _ _ _ Em) as (rows & Hrows & Hall);
       rewrite Hctx in Hrows; cbn in Hrows;
       destruct u as [[err |] fr1]; cbn [fst snd] in *;
       [injection E as <- _; cbn; by rewrite Hrows
       | apply bind_inv in E as [(a & _ & [=]) | (buf & w3 & _ & E)];
         injection E as <- _; cbn; by rewrite Hrows]).
  - intros i ctx d statement params fn toplevel w x w' E.
    apply Hlen. unfold execute, execute_body in E.
    destruct (Parse statement) as [ast | err]; [| by eapply Hnil].
    destruct (Nat.eqb (length ast) 0); [by eapply Hnil |].
    apply bind_inv in E as [(a & _ & [=]) | (c & w1 & Hctx & E)].
    destruct c as [[execCtx fr] | err]; [| by eapply Hnil].
    apply newExecCtx_delivered in Hctx.
    apply bind_inv in E as [(a & _ & [=]) | (b & w2 & _ & E)].
    destruct b as [[err |] sc]; cbn [fst snd] in E; [by eapply Hnil |].
    apply bind_inv in E as [(a & _ & [=]) | (u & w3 & Em & E)].
    destruct (runStatements_delivers _ _ _ _ _ _ _ _ _ _ Em) as (rows & Hrows & Hall).
    cbn in Hrows. rewrite Hctx in Hrows. cbn in Hrows.
    injection E as <- _. cbn. by rewrite Hrows.
Qed.

End DeliveredRows.

(** ** Log buffers of other execution contexts *)

Section OlderBuffers.

Context `{Host}.

Lemma extends_by_lookup {A} (l l' : list A) :
  length l <= length l' ->
  (forall n, n < length l -> l' !! n = l !! n) ->
  l' = l ++ drop (length l) l'.
Proof.
  intros Hlen Hsame. rewrite <- (take_drop (length l) l') at 1. f_equal.
  apply list_eq. intros n. destruct (decide (n < length l)) as [Hlt | Hge].
  - rewrite lookup_take_lt by done. by apply Hsame.
  - rewrite lookup_take_ge by lia. symmetry. apply lookup_ge_None. lia.
Qed.

Lemma evolves_None_extends w tr delta w' :
  evolves None w tr delta w' -> exists fresh, heap w' = heap w ++ fresh.
Proof.
  intros (_ & Hlen & Hsame & _). eexists. apply extends_by_lookup; [done |].
  intros n Hn. by apply Hsame.
Qed.

(** X14: a [call] or an [execute] that comes back, with or without an
    error and at any nesting depth, has left every log buffer that existed
    when it started exactly as it was: it writes only into buffers of
    execution contexts created on its behalf, which are added after the
    existing ones; and whatever it does, it only adds to what has been
    observed before (queries sent, lines written, statements started),
    never takes back. *)
Theorem engine_leaves_older_buffers depth :
  (forall i ctx d namespace action args resultFn toplevel w r w',
      call depth i ctx d namespace action args resultFn toplevel w = (r, w') ->
      (exists tr, trace w' = trace w ++ tr)
      /\ (forall x, r = inl x -> exists fresh, heap w' = heap w ++ fresh))
  /\ (forall i ctx d statement params fn toplevel w r w',
         execute depth i ctx d statement params fn toplevel w = (r, w') ->
         (exists tr, trace w' = trace w ++ tr)
         /\ (forall x, r = inl x -> exists fresh, heap w' = heap w ++ fresh)).
Proof.
  split.
  - intros i ctx d namespace action args resultFn toplevel w r w' E.
    destruct (call_meets_spec depth _ _ _ _ _ _ _ _ _ _ _ E) as (tr & Htr & Hback).
    split; [by exists tr |]. intros x Hx.
    destruct (Hback x Hx) as (delta & Hev & _). by eapply evolves_None_extends.
  - intros i ctx d statement params fn toplevel w r w' E.
    destruct (execute_meets_spec depth _ _ _ _ _ _ _ _ _ _ E) as (tr & Htr & Hback).
    split; [by exists tr |]. intros x Hx.
    destruct (Hback x Hx) as (delta & Hev). by eapply evolves_None_extends.
Qed.

End OlderBuffers.
